(** * rescript-ast-diff: declaration-level diff of two ReScript syntax trees

    A shallow embedding of [src/rescript_ast_diff/differ.py] and the
    properties of its extractor, canonicalizer and diff engine.

    Layout: the Python values the code manipulates (text, byte strings and
    the UTF-8 codec), the tree-sitter node interface, the methods of
    [RescriptFileDiff] in source order, concrete trees, the vocabulary the
    statements use, and then the lemmas and theorems. *)

From Stdlib.Strings Require Import Byte.
From stdpp Require Import gmap strings list sorting.

Set Warnings "-register-all".

Local Open Scope string_scope.
Local Open Scope list_scope.

(** ** Python text

    A Python [str] is a sequence of Unicode code points; [bytes] is a
    sequence of octets.  [x < y] on [str] compares code points
    lexicographically, a proper prefix being smaller. *)

Definition pystr : Type := list N.
Definition bytes : Type := list byte.

(** A literal of the source, code point by code point. *)
Definition lit (s : string) : pystr :=
  map Ascii.N_of_ascii (String.list_ascii_of_string s).

(** The bytes of an ASCII source fragment, for building concrete trees. *)
Definition src (s : string) : bytes := String.list_byte_of_string s.

Fixpoint pystr_ltb (a b : pystr) : bool :=
  match a, b with
  | [], [] => false
  | [], _ :: _ => true
  | _ :: _, [] => false
  | x :: a', y :: b' =>
      if (x <? y)%N then true
      else if (y <? x)%N then false
      else pystr_ltb a' b'
  end.

(** [a <= b] on [str], the order [sorted] arranges its output in. *)
Definition pystr_le (a b : pystr) : Prop := pystr_ltb b a = false.
Definition pystr_lt (a b : pystr) : Prop := pystr_ltb a b = true.

Global Instance pystr_le_dec a b : Decision (pystr_le a b).
Proof. unfold pystr_le. apply _. Defined.

(** [sorted(s)] for a set of strings.  The order is total and antisymmetric
    and a set has no repeated element, so there is exactly one sorted
    arrangement; merge sort computes it. *)
Definition sorted (s : gset pystr) : list pystr :=
  merge_sort pystr_le (elements s).

(** ** bytes.decode

    [b.decode(errors=...)] with the default encoding, UTF-8.  The codec
    scans the bytes; every ill-formed stretch (an invalid start byte, a
    sequence cut short by a byte that cannot continue it, or by the end of
    the data) is reported once to the error handler, and scanning resumes
    at the first byte that is not part of it. *)

Inductive utf8_item : Type :=
  | Char (cp : N)
  | Bad.

(** A multi-byte sequence in progress: the bits gathered so far, the number
    of continuation bytes still expected, and the range the next byte must
    lie in (narrower than 80..BF after E0, ED, F0 and F4, which excludes
    overlong forms, surrogates and code points above 10FFFF). *)
Record utf8_pending : Type := Pending {
  acc : N;
  need : nat;
  lo : N;
  hi : N
}.

Inductive utf8_lead_class : Type :=
  | LeadAscii
  | LeadMulti (p : utf8_pending)
  | LeadInvalid.

Definition utf8_lead (b : N) : utf8_lead_class :=
  if (b <? 0x80)%N then LeadAscii
  else if (b <? 0xC2)%N then LeadInvalid
  else if (b <? 0xE0)%N then LeadMulti (Pending (b - 0xC0) 1 0x80 0xBF)
  else if (b =? 0xE0)%N then LeadMulti (Pending 0 2 0xA0 0xBF)
  else if (b =? 0xED)%N then LeadMulti (Pending 0xD 2 0x80 0x9F)
  else if (b <? 0xF0)%N then LeadMulti (Pending (b - 0xE0) 2 0x80 0xBF)
  else if (b =? 0xF0)%N then LeadMulti (Pending 0 3 0x90 0xBF)
  else if (b <? 0xF4)%N then LeadMulti (Pending (b - 0xF0) 3 0x80 0xBF)
  else if (b =? 0xF4)%N then LeadMulti (Pending 4 3 0x80 0x8F)
  else LeadInvalid.

Fixpoint utf8_scan (st : option utf8_pending) (bs : bytes) : list utf8_item :=
  match bs with
  | [] => match st with None => [] | Some _ => [Bad] end
  | b :: rest =>
      let fresh :=
        match utf8_lead (Byte.to_N b) with
        | LeadAscii => Char (Byte.to_N b) :: utf8_scan None rest
        | LeadMulti p => utf8_scan (Some p) rest
        | LeadInvalid => Bad :: utf8_scan None rest
        end in
      match st with
      | None => fresh
      | Some p =>
          if ((lo p <=? Byte.to_N b) && (Byte.to_N b <=? hi p))%N then
            let acc' := (acc p * 64 + (Byte.to_N b - 0x80))%N in
            match need p with
            | S (S k) => utf8_scan (Some (Pending acc' (S k) 0x80 0xBF)) rest
            | _ => Char acc' :: utf8_scan None rest
            end
          else Bad :: fresh
      end
  end.

(** [errors="strict"] (the default): the first ill-formed stretch raises
    UnicodeDecodeError, here [None]. *)
Definition decode_strict (bs : bytes) : option pystr :=
  mapM (λ i, match i with Char cp => Some cp | Bad => None end)
       (utf8_scan None bs).

(** [errors="ignore"]: ill-formed stretches contribute nothing. *)
Definition decode_ignore (bs : bytes) : pystr :=
  omap (λ i, match i with Char cp => Some cp | Bad => None end)
       (utf8_scan None bs).

(** [errors="replace"]: each ill-formed stretch becomes U+FFFD. *)
Definition decode_replace (bs : bytes) : pystr :=
  map (λ i, match i with Char cp => cp | Bad => 0xFFFD%N end)
      (utf8_scan None bs).

(** ** The parse tree

    What the code reads of a tree-sitter [Node]: its grammar type, whether it
    is a named node, the bytes of the source it spans, its start and end
    (row, column), and its children in source order.  [node.parent] is not a
    field: the traversal below carries the chain of ancestors of the node it
    is at, nearest first, and that chain is empty at the root, whose
    [parent] is [None]. *)

Definition Point : Type := nat * nat.

Inductive Node : Type := mkNode {
  type : string;
  is_named : bool;
  text : bytes;
  start_point : Point;
  end_point : Point;
  children : list Node
}.

Record Tree : Type := mkTree { root_node : Node }.

Definition named_children (node : Node) : list Node :=
  filter (λ c, is_named c) (children node).

(** Number of nodes of a tree; it bounds the iterations of the traversal. *)
Fixpoint node_size (node : Node) : nat :=
  S ((fix sum (cs : list Node) : nat :=
        match cs with
        | [] => 0
        | c :: cs' => node_size c + sum cs'
        end) (children node)).

Section node_induction.
Variable P : Node → Prop.
Hypothesis Hnode : ∀ node, Forall P (children node) → P node.

Fixpoint node_nested_ind (node : Node) : P node :=
  Hnode node
    (match node as n return Forall P (children n) with
     | mkNode _ _ _ _ _ cs =>
         (fix each (l : list Node) : Forall P l :=
            match l with
            | [] => Forall_nil_2 P
            | c :: l' => Forall_cons_2 P c l' (node_nested_ind c) (each l')
            end) cs
     end).
End node_induction.

(** ** Signatures

    The value [ast_to_tuple] builds: the pair [(type, text)], or the pair
    [(type, (sig, ...))] whose second component is a non-empty tuple.  A
    [str] never equals a tuple, so the two shapes are distinct values. *)

Inductive signature : Type :=
  | SigText (ty : string) (txt : pystr)
  | SigTuple (ty : string) (subs : list signature).

(** Python [==] on these nested tuples. *)
Fixpoint signature_eqb (a b : signature) : bool :=
  match a, b with
  | SigText ta xa, SigText tb xb =>
      bool_decide (ta = tb) && bool_decide (xa = xb)
  | SigTuple ta la, SigTuple tb lb =>
      bool_decide (ta = tb) &&
      (fix all2 (la lb : list signature) : bool :=
         match la, lb with
         | [], [] => true
         | x :: la', y :: lb' => signature_eqb x y && all2 la' lb'
         | _, _ => false
         end) la lb
  | _, _ => false
  end.

Section signature_induction.
Variable P : signature → Prop.
Hypothesis Htext : ∀ ty txt, P (SigText ty txt).
Hypothesis Htuple : ∀ ty subs, Forall P subs → P (SigTuple ty subs).

Fixpoint signature_nested_ind (s : signature) : P s :=
  match s with
  | SigText ty txt => Htext ty txt
  | SigTuple ty subs =>
      Htuple ty subs
        ((fix each (l : list signature) : Forall P l :=
            match l with
            | [] => Forall_nil_2 P
            | x :: l' => Forall_cons_2 P x l' (signature_nested_ind x) (each l')
            end) subs)
  end.
End signature_induction.

Lemma signature_eqb_eq a b : signature_eqb a b = true ↔ a = b.
Proof.
  revert b. induction a as [ta xa|ta la IH] using signature_nested_ind;
    intros [tb xb|tb lb]; simpl; try (split; [done|congruence]).
  - rewrite andb_true_iff, !bool_decide_eq_true. split; [intros [-> ->]|intros [= -> ->]]; done.
  - rewrite andb_true_iff, bool_decide_eq_true.
    assert ((fix all2 (la lb : list signature) : bool :=
               match la, lb with
               | [], [] => true
               | x :: la', y :: lb' => signature_eqb x y && all2 la' lb'
               | _, _ => false
               end) la lb = true ↔ la = lb) as ->.
    { revert lb. induction IH as [|x la Hx _ IHla]; intros [|y lb]; try done.
      rewrite andb_true_iff, Hx, IHla. split; [intros [-> ->]|intros [= -> ->]]; done. }
    split; [intros [-> ->]|intros [= -> ->]]; done.
Qed.

Lemma signature_eqb_refl a : signature_eqb a a = true.
Proof. by apply signature_eqb_eq. Qed.

Global Instance signature_eq_dec : EqDecision signature.
Proof.
  intros a b. destruct (signature_eqb a b) eqn:E.
  - left. by apply signature_eqb_eq.
  - right. intros H%signature_eqb_eq. congruence.
Defined.

Global Instance signature_inhabited : Inhabited signature :=
  populate (SigText "" []).

(** ** RescriptFileDiff.get_decl_name *)

(** Truth value of the [node_type] argument: [None] and the empty string
    are false. *)
Definition truthy_type (node_type : option string) : bool :=
  match node_type with
  | Some s => negb (bool_decide (s = ""))
  | None => false
  end.

(** The inner [for grandchild in child.children] loop: the text of the
    first named grandchild of type [name_type], when there is one. *)
Fixpoint first_named_of_type (name_type : string) (cs : list Node) : option pystr :=
  match cs with
  | [] => None
  | g :: cs' =>
      if is_named g && bool_decide (type g = name_type)
      then Some (decode_ignore (text g))
      else first_named_of_type name_type cs'
  end.

(** The outer [for child in node.children] loop.  [None] is Python's
    [None], returned when the loops end without a [return]. *)
Fixpoint get_decl_name_from (cs : list Node) (node_type : option string)
    (name_type : string) : option pystr :=
  match cs with
  | [] => None
  | child :: cs' =>
      if truthy_type node_type && bool_decide (Some (type child) = node_type) then
        match first_named_of_type name_type (children child) with
        | Some name => Some name
        | None => get_decl_name_from cs' node_type name_type
        end
      else if negb (truthy_type node_type) && is_named child
              && bool_decide (type child = name_type) then
        Some (decode_ignore (text child))
      else get_decl_name_from cs' node_type name_type
  end.

Definition get_decl_name (node : Node) (node_type : option string)
    (name_type : string) : option pystr :=
  get_decl_name_from (children node) node_type name_type.

(** ** RescriptFileDiff.ast_to_tuple *)

Fixpoint ast_to_tuple (node : Node) : signature :=
  let subs :=
    (fix over (cs : list Node) : list signature :=
       match cs with
       | [] => []
       | c :: cs' =>
           if is_named c then ast_to_tuple c :: over cs' else over cs'
       end) (children node) in
  match subs with
  | [] => SigText (type node) (decode_ignore (text node))
  | _ :: _ => SigTuple (type node) subs
  end.

(** ** RescriptFileDiff.extract_components *)

(** A map entry: [(ast_repr, body_text, node.start_point, node.end_point)]. *)
Definition Entry : Type := signature * pystr * Point * Point.

Definition entry_of (node : Node) : Entry :=
  (ast_to_tuple node, decode_ignore (text node), start_point node, end_point node).

(** The three dicts [functions], [types], [externals]. *)
Record Components : Type := mkComponents {
  functions : gmap pystr Entry;
  types : gmap pystr Entry;
  externals : gmap pystr Entry
}.

(** How a call ends: it returns, an exception leaves it, or the model ran
    out of steps (which [extract_components] is shown never to do). *)
Inductive outcome (A : Type) : Type :=
  | Returns (a : A)
  | Raises
  | OutOfSteps.
Arguments Returns {A} a.
Arguments Raises {A}.
Arguments OutOfSteps {A}.

(** [f"{name}"]: [None] is formatted as the word None. *)
Definition format_name (name : option pystr) : pystr :=
  match name with
  | Some s => s
  | None => lit "None"
  end.

(** The [try] block of the let branch.  [above] is the chain of ancestors
    starting at [node.parent.parent].  Whatever fails inside the block -- no
    grandparent, no first child, text that is not UTF-8 (this decode is
    strict) -- is swallowed by the bare [except] and leaves [name] as it
    was. *)
Definition qualify (above : list Node) (name : option pystr) : option pystr :=
  match above with
  | [] => name
  | grandparent :: _ =>
      match children grandparent with
      | [] => name
      | first :: _ =>
          match decode_strict (text first) with
          | Some prefix => Some (prefix ++ lit " --> " ++ format_name name)
          | None => name
          end
      end
  end.

(** A stack slot: a node together with its ancestors, nearest first. *)
Definition Located : Type := list Node * Node.

(** [for child in reversed(node.children): if child.is_named:
    stack.append(child)].  The head of the list is the top of the stack. *)
Definition push_children (ancestors : list Node) (node : Node)
    (stack : list Located) : list Located :=
  foldl (λ st child, if is_named child then (node :: ancestors, child) :: st else st)
        stack (reverse (children node)).

Definition set_function (name : pystr) (node : Node) (m : Components) : Components :=
  mkComponents (<[name := entry_of node]> (functions m)) (types m) (externals m).
Definition set_type (name : pystr) (node : Node) (m : Components) : Components :=
  mkComponents (functions m) (<[name := entry_of node]> (types m)) (externals m).
Definition set_external (name : pystr) (node : Node) (m : Components) : Components :=
  mkComponents (functions m) (types m) (<[name := entry_of node]> (externals m)).

(** The [while stack:] loop, one iteration per unit of [steps].  The test
    [if name:] is false for [None] and for the empty string, so only a name
    [c :: key] is written to a dict. *)
Fixpoint extract_loop (steps : nat) (stack : list Located) (m : Components)
    : outcome Components :=
  match stack with
  | [] => Returns m
  | (ancestors, node) :: stack =>
      match steps with
      | 0 => OutOfSteps
      | S steps =>
          if decide (type node = "let_declaration") then
            let name := get_decl_name node (Some "let_binding") "value_identifier" in
            match ancestors with
            | [] => Raises
            | parent :: above =>
                let name :=
                  if decide (type parent ≠ "source_file")
                  then qualify above name else name in
                match name with
                | Some (c :: key) =>
                    extract_loop steps stack (set_function (c :: key) node m)
                | _ => extract_loop steps stack m
                end
            end
          else if decide (type node = "type_declaration") then
            match get_decl_name node (Some "type_binding") "type_identifier" with
            | Some (c :: key) =>
                extract_loop steps stack (set_type (c :: key) node m)
            | _ => extract_loop steps stack m
            end
          else if decide (type node = "external_declaration") then
            match get_decl_name node None "value_identifier" with
            | Some (c :: key) =>
                extract_loop steps stack (set_external (c :: key) node m)
            | _ => extract_loop steps stack m
            end
          else extract_loop steps (push_children ancestors node stack) m
      end
  end.

Definition extract_components (root : Node) : outcome Components :=
  extract_loop (node_size root) [([], root)] (mkComponents ∅ ∅ ∅).

(** ** RescriptFileDiff.diff_components *)

(** Sequencing of calls that may raise. *)
Definition and_then {A B : Type} (x : outcome A) (k : A → outcome B) : outcome B :=
  match x with
  | Returns a => k a
  | Raises => Raises
  | OutOfSteps => OutOfSteps
  end.

Notation "'do' x <- e1 ; e2" := (and_then e1 (λ x, e2))
  (at level 10, x pattern, e1 at level 100, e2 at level 200).

(** [d[k]]: KeyError when the key is absent. *)
Definition getitem (d : gmap pystr Entry) (k : pystr) : outcome Entry :=
  match d !! k with
  | Some e => Returns e
  | None => Raises
  end.

Definition body_text (e : Entry) : pystr := e.1.1.2.
Definition ast_repr (e : Entry) : signature := e.1.1.1.

(** [[(n, d[n][1]) for n in names]]. *)
Fixpoint with_body (d : gmap pystr Entry) (names : list pystr)
    : outcome (list (pystr * pystr)) :=
  match names with
  | [] => Returns []
  | n :: names =>
      do e <- getitem d n;
      do rest <- with_body d names;
      Returns ((n, body_text e) :: rest)
  end.

(** The dict of the four spans carried by a modified entry. *)
Record Spans : Type := mkSpans {
  old_start : Point;
  old_end : Point;
  new_start : Point;
  new_end : Point
}.

Definition Modified : Type := pystr * pystr * pystr * Spans.

(** The [for name in sorted(common):] loop; [modified] is the list built so
    far. *)
Fixpoint modified_loop (before_map after_map : gmap pystr Entry)
    (names : list pystr) (modified : list Modified) : outcome (list Modified) :=
  match names with
  | [] => Returns modified
  | name :: names =>
      do old <- getitem before_map name;
      do new <- getitem after_map name;
      if negb (signature_eqb (ast_repr old) (ast_repr new)) then
        modified_loop before_map after_map names
          (modified ++ [(name, body_text old, body_text new,
                         mkSpans old.1.2 old.2 new.1.2 new.2)])
      else modified_loop before_map after_map names modified
  end.

(** The returned dict, keys [added], [deleted], [modified]. *)
Record Diff : Type := mkDiff {
  added : list (pystr * pystr);
  deleted : list (pystr * pystr);
  modified : list Modified
}.

Definition diff_components (before_map after_map : gmap pystr Entry) : outcome Diff :=
  let before_names : gset pystr := dom before_map in
  let after_names : gset pystr := dom after_map in
  let added_names := after_names ∖ before_names in
  let deleted_names := before_names ∖ after_names in
  let common := before_names ∩ after_names in
  do added <- with_body after_map (sorted added_names);
  do deleted <- with_body before_map (sorted deleted_names);
  do modified <- modified_loop before_map after_map (sorted common) [];
  Returns (mkDiff added deleted modified).

(** ** DetailedChanges and the two entry points *)

Record DetailedChanges : Type := mkChanges {
  moduleName : pystr;
  addedFunctions : list (pystr * pystr);
  modifiedFunctions : list Modified;
  deletedFunctions : list (pystr * pystr);
  addedTypes : list (pystr * pystr);
  modifiedTypes : list Modified;
  deletedTypes : list (pystr * pystr);
  addedExternals : list (pystr * pystr);
  modifiedExternals : list Modified;
  deletedExternals : list (pystr * pystr)
}.

(** [DetailedChanges.__init__], also the state of a new [RescriptFileDiff]. *)
Definition new_changes (module_name : pystr) : DetailedChanges :=
  mkChanges module_name [] [] [] [] [] [] [] [] [].

(** [self.changes] is threaded through: each method takes the report as it
    stands and returns it with the assigned lists replaced. *)
Definition compare_two_files (changes : DetailedChanges)
    (old_file_ast new_file_ast : Tree) : outcome DetailedChanges :=
  do old <- extract_components (root_node old_file_ast);
  do new <- extract_components (root_node new_file_ast);
  do funcs_diff <- diff_components (functions old) (functions new);
  do types_diff <- diff_components (types old) (types new);
  do ext_diff <- diff_components (externals old) (externals new);
  Returns (mkChanges (moduleName changes)
             (added funcs_diff) (modified funcs_diff) (deleted funcs_diff)
             (added types_diff) (modified types_diff) (deleted types_diff)
             (added ext_diff) (modified ext_diff) (deleted ext_diff)).

Definition process_single_file (changes : DetailedChanges) (file_ast : Tree)
    (mode : pystr) : outcome DetailedChanges :=
  do found <- extract_components (root_node file_ast);
  let func_names : gset pystr := dom (functions found) in
  let type_names : gset pystr := dom (types found) in
  let ext_names : gset pystr := dom (externals found) in
  if decide (mode = lit "deleted") then
    do fs <- with_body (functions found) (sorted func_names);
    do ts <- with_body (types found) (sorted type_names);
    do es <- with_body (externals found) (sorted ext_names);
    Returns (mkChanges (moduleName changes)
               (addedFunctions changes) (modifiedFunctions changes) fs
               (addedTypes changes) (modifiedTypes changes) ts
               (addedExternals changes) (modifiedExternals changes) es)
  else
    do fs <- with_body (functions found) (sorted func_names);
    do ts <- with_body (types found) (sorted type_names);
    do es <- with_body (externals found) (sorted ext_names);
    Returns (mkChanges (moduleName changes)
               fs (modifiedFunctions changes) (deletedFunctions changes)
               ts (modifiedTypes changes) (deletedTypes changes)
               es (modifiedExternals changes) (deletedExternals changes)).

(** ** DetailedChanges.to_dict *)

(** A value of the returned dict: the module name, a list of
    [(name, text)] pairs, or a list of modified entries. *)
Inductive report_value : Type :=
  | NameValue (name : pystr)
  | PairsValue (entries : list (pystr * pystr))
  | ModifiedValue (entries : list Modified).

(** The dict literal, key by key in the order it is written (a dict keeps
    insertion order). *)
Definition to_dict (self : DetailedChanges) : list (string * report_value) :=
  [("moduleName", NameValue (moduleName self));
   ("addedFunctions", PairsValue (addedFunctions self));
   ("modifiedFunctions", ModifiedValue (modifiedFunctions self));
   ("deletedFunctions", PairsValue (deletedFunctions self));
   ("addedTypes", PairsValue (addedTypes self));
   ("modifiedTypes", ModifiedValue (modifiedTypes self));
   ("deletedTypes", PairsValue (deletedTypes self));
   ("addedExternals", PairsValue (addedExternals self));
   ("modifiedExternals", ModifiedValue (modifiedExternals self));
   ("deletedExternals", PairsValue (deletedExternals self))].

(** ** Concrete trees *)

Definition leaf (ty : string) (named : bool) (txt : string) : Node :=
  mkNode ty named (src txt) (0, 0) (0, 0) [].
Definition inner (ty : string) (txt : string) (cs : list Node) : Node :=
  mkNode ty true (src txt) (0, 0) (0, 0) cs.

(** [let <name> = <number>] *)
Definition let_decl (name value : string) : Node :=
  inner "let_declaration" ("let " ++ name ++ " = " ++ value)
    [leaf "let" false "let";
     inner "let_binding" (name ++ " = " ++ value)
       [leaf "value_identifier" true name;
        leaf "=" false "=";
        leaf "number" true value]].

(** [let (a, b) = (1, 2)]: the binding holds a pattern and a tuple, no
    identifier of its own. *)
Definition let_pair : Node :=
  inner "let_declaration" "let (a, b) = (1, 2)"
    [leaf "let" false "let";
     inner "let_binding" "(a, b) = (1, 2)"
       [inner "tuple_pattern" "(a, b)"
          [leaf "(" false "(";
           inner "tuple_item_pattern" "a" [leaf "value_identifier" true "a"];
           leaf "," false ",";
           inner "tuple_item_pattern" "b" [leaf "value_identifier" true "b"];
           leaf ")" false ")"];
        leaf "=" false "=";
        inner "tuple" "(1, 2)"
          [leaf "(" false "(";
           leaf "number" true "1";
           leaf "," false ",";
           leaf "number" true "2";
           leaf ")" false ")"]]].

(** [type <name> = int] *)
Definition type_decl (name : string) : Node :=
  inner "type_declaration" ("type " ++ name ++ " = int")
    [leaf "type" false "type";
     inner "type_binding" (name ++ " = int")
       [leaf "type_identifier" true name;
        leaf "=" false "=";
        leaf "type_identifier" true "int"]].

(** [external <name>: int = <js>] *)
Definition external_decl (name js : string) : Node :=
  inner "external_declaration" ("external " ++ name ++ ": int = " ++ js)
    [leaf "external" false "external";
     leaf "value_identifier" true name;
     leaf ":" false ":";
     inner "type_annotation" "int" [leaf "type_identifier" true "int"];
     leaf "=" false "=";
     leaf "string" true js].

(** [module <name> = { <decls> }] *)
Definition module_decl (name : string) (decls : list Node) : Node :=
  inner "module_declaration" ("module " ++ name ++ " = {...}")
    [leaf "module" false "module";
     inner "module_binding" (name ++ " = {...}")
       [leaf "module_identifier" true name;
        leaf "=" false "=";
        inner "block" "{...}"
          ([leaf "{" false "{"] ++ decls ++ [leaf "}" false "}"])]].

Definition file_of (cs : list Node) : Tree :=
  mkTree (inner "source_file" "" cs).

(** The tree of an empty file. *)
Definition empty_tree : Tree := file_of [].

Definition sample_file : Tree :=
  file_of [let_decl "add" "1"; type_decl "t"; external_decl "now" "'now'";
           module_decl "M" [let_decl "add" "2"; let_decl "sub" "3"];
           let_decl "add" "4"].

(** * Vocabulary of the statements *)

(** ** The diff engine *)

(** The pair [(n, d[n][1])]. *)
Definition named_body (d : gmap pystr Entry) (n : pystr) : pystr * pystr :=
  (n, body_text (d !!! n)).

(** The tuple appended to [modified] for the name [n]. *)
Definition modified_entry (before after : gmap pystr Entry) (n : pystr) : Modified :=
  (n, body_text (before !!! n), body_text (after !!! n),
   mkSpans (before !!! n).1.2 (before !!! n).2 (after !!! n).1.2 (after !!! n).2).

(** [old_ast != new_ast] for the name [n]. *)
Definition differs (before after : gmap pystr Entry) (n : pystr) : Prop :=
  ast_repr (before !!! n) ≠ ast_repr (after !!! n).

(** The name a modified entry starts with. *)
Definition modified_name (m : Modified) : pystr := m.1.1.1.

(** The names in each of the three lists. *)
Definition added_names (d : Diff) : gset pystr := list_to_set (added d).*1.
Definition deleted_names (d : Diff) : gset pystr := list_to_set (deleted d).*1.
Definition modified_names (d : Diff) : gset pystr :=
  list_to_set (modified_name <$> modified d).

(** Common names whose two signatures are equal; they are in no list. *)
Definition unchanged_names (before after : gmap pystr Entry) : gset pystr :=
  filter (λ n, ast_repr <$> before !! n = ast_repr <$> after !! n)
         (dom before ∩ dom after).

(** [sorted(d.keys())] paired with the texts, the lists of single-version
    mode. *)
Definition all_of (d : gmap pystr Entry) : list (pystr * pystr) :=
  named_body d <$> sorted (dom d).

(** A list of names in strictly ascending order; in particular no name
    occurs twice. *)
Definition ascending (names : list pystr) : Prop :=
  StronglySorted pystr_lt names ∧ NoDup names.

(** ** The traversal *)

(** Number of nodes of the trees on a stack. *)
Fixpoint total_size (nodes : list Node) : nat :=
  match nodes with
  | [] => 0
  | c :: cs => node_size c + total_size cs
  end.

(** The three node types the loop has a branch for. *)
Definition is_declaration (node : Node) : Prop :=
  type node = "let_declaration" ∨ type node = "type_declaration"
  ∨ type node = "external_declaration".

Global Instance is_declaration_dec node : Decision (is_declaration node).
Proof. unfold is_declaration. apply _. Defined.

(** Every node of a tree with its ancestors, in document order: a node
    before its children, the children from first to last. *)
Fixpoint document_order (ancestors : list Node) (node : Node) : list Located :=
  (ancestors, node) ::
  (fix over (cs : list Node) : list Located :=
     match cs with
     | [] => []
     | c :: cs' => document_order (node :: ancestors) c ++ over cs'
     end) (children node).

(** The nodes the loop pops, in the order it pops them: a node, then, unless
    it is one of the three declarations, what is reached from each of its
    named children in turn. *)
Fixpoint reached (ancestors : list Node) (node : Node) : list Located :=
  (ancestors, node) ::
  if decide (is_declaration node) then []
  else
    (fix over (cs : list Node) : list Located :=
       match cs with
       | [] => []
       | c :: cs' =>
           (if is_named c then reached (node :: ancestors) c else []) ++ over cs'
       end) (children node).

Definition reached_from (loc : Located) : list Located := reached loc.1 loc.2.

(** [if name:] lets through a non-empty name only. *)
Definition usable (name : option pystr) : option pystr :=
  match name with
  | Some (c :: key) => Some (c :: key)
  | _ => None
  end.

(** The key under which the let branch stores a node in [functions], if it
    stores it: the name found, qualified when the parent is not the file. *)
Definition function_key (loc : Located) : option pystr :=
  if decide (type loc.2 = "let_declaration") then
    match loc.1 with
    | [] => None
    | parent :: above =>
        let name := get_decl_name loc.2 (Some "let_binding") "value_identifier" in
        usable (if decide (type parent ≠ "source_file")
                then qualify above name else name)
    end
  else None.

(** The same for the type branch and [types]. *)
Definition type_key (loc : Located) : option pystr :=
  if decide (type loc.2 = "let_declaration") then None
  else if decide (type loc.2 = "type_declaration") then
    usable (get_decl_name loc.2 (Some "type_binding") "type_identifier")
  else None.

(** The same for the external branch and [externals]. *)
Definition external_key (loc : Located) : option pystr :=
  if decide (type loc.2 = "let_declaration") then None
  else if decide (type loc.2 = "type_declaration") then None
  else if decide (type loc.2 = "external_declaration") then
    usable (get_decl_name loc.2 None "value_identifier")
  else None.

(** What one iteration does to the dicts. *)
Definition record (m : Components) (loc : Located) : Components :=
  match function_key loc, type_key loc, external_key loc with
  | Some k, _, _ => set_function k loc.2 m
  | None, Some k, _ => set_type k loc.2 m
  | None, None, Some k => set_external k loc.2 m
  | None, None, None => m
  end.

(** The only way an iteration raises: [node.parent.type] at a let
    declaration without a parent. *)
Definition orphan_let (loc : Located) : Prop :=
  type loc.2 = "let_declaration" ∧ loc.1 = [].

Global Instance orphan_let_dec loc : Decision (orphan_let loc).
Proof. unfold orphan_let. apply _. Defined.

(** The iterations for a sequence of nodes, first to last. *)
Fixpoint visit_all (locs : list Located) (m : Components) : outcome Components :=
  match locs with
  | [] => Returns m
  | loc :: locs =>
      if decide (orphan_let loc) then Raises else visit_all locs (record m loc)
  end.

(** The dicts extraction builds for a tree whose root is not a let
    declaration. *)
Definition found (root : Node) : Components :=
  foldl record (mkComponents ∅ ∅ ∅) (reached [] root).

(** ** Nesting *)

(** A node none of whose ancestors is a let, type or external declaration. *)
Definition outside_declarations (loc : Located) : Prop :=
  Forall (λ a, ¬ is_declaration a) loc.1.

(** The key a node is stored under, whichever the dict. *)
Definition declared_as (loc : Located) : option pystr :=
  match function_key loc, type_key loc with
  | Some k, _ => Some k
  | None, Some k => Some k
  | None, None => external_key loc
  end.

(** [e] is the entry, stored under [name], of a node of the tree that lies
    outside every declaration. *)
Definition top_level_entry (root : Node) (name : pystr) (e : Entry) : Prop :=
  ∃ loc, loc ∈ document_order [] root
         ∧ outside_declarations loc
         ∧ declared_as loc = Some name
         ∧ e = entry_of loc.2.

(** [name] and [body] are the key and the source text of such a node. *)
Definition top_level_declaration (root : Node) (name body : pystr) : Prop :=
  ∃ e, top_level_entry root name e ∧ body = body_text e.

(** ** Signatures *)

(** Two subtrees that differ at most in unnamed nodes and in the layout
    around them: the same type, named children that pairwise differ no more
    than that, and, for two nodes without any child, the same text.  The text
    of a node with children is left free: it is made of the text of the
    children and of the layout between them. *)
Inductive differ_in_unnamed_only : Node → Node → Prop :=
  | differ_in_unnamed_only_intro a b :
      type a = type b →
      Forall2 differ_in_unnamed_only (named_children a) (named_children b) →
      (children a = [] → children b = [] → text a = text b) →
      differ_in_unnamed_only a b.

(** What the code compares: the type, the named children pairwise, and the
    decoded text of a node that has no named child. *)
Inductive same_named_content : Node → Node → Prop :=
  | same_named_content_intro a b :
      type a = type b →
      Forall2 same_named_content (named_children a) (named_children b) →
      (named_children a = [] → decode_ignore (text a) = decode_ignore (text b)) →
      same_named_content a b.

(** ** Decoding *)

(** The code point of a well-formed sequence; nothing for an ill-formed
    stretch. *)
Definition item_char (i : utf8_item) : option N :=
  match i with Char cp => Some cp | Bad => None end.

(** The byte FF can neither start nor continue a sequence: no sequence in
    progress accepts it. *)
Definition below_ff (st : option utf8_pending) : Prop :=
  match st with Some p => (hi p < 0xFF)%N | None => True end.

(** A continuation byte, 80..BF: the only bytes a sequence in progress can
    accept. *)
Definition continuation (b : byte) : Prop := (0x80 ≤ Byte.to_N b ≤ 0xBF)%N.

(** Bytes that do not begin with a continuation byte: what comes before
    them cannot reach into them. *)
Definition starts_sequence (bs : bytes) : Prop :=
  match bs with
  | [] => True
  | b :: _ => ¬ continuation b
  end.

(** A sequence in progress accepts continuation bytes only. *)
Definition within_continuation (st : option utf8_pending) : Prop :=
  match st with
  | Some p => (0x80 ≤ lo p)%N ∧ (hi p ≤ 0xBF)%N
  | None => True
  end.

(** The bytes of the well-formed sequences of [bs], in order: the scan of
    [utf8_scan], keeping in [pre] the bytes of the sequence in progress and
    giving them out when the sequence is completed; the bytes of an
    ill-formed stretch are left out. *)
Fixpoint utf8_kept (st : option utf8_pending) (pre bs : bytes) : bytes :=
  match bs with
  | [] => []
  | b :: rest =>
      let fresh :=
        match utf8_lead (Byte.to_N b) with
        | LeadAscii => b :: utf8_kept None [] rest
        | LeadMulti p => utf8_kept (Some p) [b] rest
        | LeadInvalid => utf8_kept None [] rest
        end in
      match st with
      | None => fresh
      | Some p =>
          if ((lo p <=? Byte.to_N b) && (Byte.to_N b <=? hi p))%N then
            let acc' := (acc p * 64 + (Byte.to_N b - 0x80))%N in
            match need p with
            | S (S k) => utf8_kept (Some (Pending acc' (S k) 0x80 0xBF)) (pre ++ [b]) rest
            | _ => pre ++ b :: utf8_kept None [] rest
            end
          else fresh
      end
  end.

(** The scanner is in state [p] after the bytes [pre]. *)
Definition pending_after (pre : bytes) (p : utf8_pending) : Prop :=
  ∀ more, utf8_scan None (pre ++ more) = utf8_scan (Some p) more.

(** ** Names *)

(** A child that can give a declaration its name: a named node of type
    [name_type]. *)
Definition names_it (name_type : string) (g : Node) : Prop :=
  is_named g ∧ type g = name_type.

Global Instance names_it_dec name_type g : Decision (names_it name_type g).
Proof. unfold names_it. apply _. Defined.

(** The type a signature starts with. *)
Definition signature_type (s : signature) : string :=
  match s with
  | SigText ty _ => ty
  | SigTuple ty _ => ty
  end.

(** A modified entry read in the other direction. *)
Definition swap_modified (m : Modified) : Modified :=
  (modified_name m, m.1.2, m.1.1.2,
   mkSpans (new_start m.2) (new_end m.2) (old_start m.2) (old_end m.2)).

(** ** Positions *)

(** The same node but for the positions, all the way down. *)
Inductive same_but_positions : Node → Node → Prop :=
  | same_but_positions_intro a b :
      type a = type b →
      is_named a = is_named b →
      text a = text b →
      Forall2 same_but_positions (children a) (children b) →
      same_but_positions a b.

(** Two nodes of one type whose children are pairwise the same but for the
    positions; their own text and positions are free.  For two roots: the
    same declarations, laid out differently between them. *)
Definition same_children_but_positions (a b : Node) : Prop :=
  type a = type b ∧ Forall2 same_but_positions (children a) (children b).

(** The same place in two such trees. *)
Definition same_place (l1 l2 : Located) : Prop :=
  Forall2 same_children_but_positions l1.1 l2.1 ∧ same_but_positions l1.2 l2.2.

(** Two results of extraction with the same keys and, key by key, the same
    signature. *)
Definition same_signatures (m1 m2 : Components) : Prop :=
  ∀ k, ast_repr <$> functions m1 !! k = ast_repr <$> functions m2 !! k
       ∧ ast_repr <$> types m1 !! k = ast_repr <$> types m2 !! k
       ∧ ast_repr <$> externals m1 !! k = ast_repr <$> externals m2 !! k.

(** ** More concrete inputs *)

(** A report that an earlier compare has filled. *)
Definition used_changes : DetailedChanges :=
  mkChanges (lit "M") [(lit "helper", lit "let helper = 1")]
    [(lit "add", lit "let add = 1", lit "let add = 2", mkSpans (0, 0) (0, 11) (3, 0) (3, 11))]
    [] [] [] [] [] [] [].

(** [let a = 1] starting at column [col] of the first line, and a file that
    holds it after [col] blanks. *)
Definition let_a_at (col : nat) : Node :=
  mkNode "let_declaration" true (src "let a = 1") (0, col) (0, col + 9)
    [mkNode "let" false (src "let") (0, col) (0, col + 3) [];
     mkNode "let_binding" true (src "a = 1") (0, col + 4) (0, col + 9)
       [mkNode "value_identifier" true (src "a") (0, col + 4) (0, col + 5) [];
        mkNode "=" false (src "=") (0, col + 6) (0, col + 7) [];
        mkNode "number" true (src "1") (0, col + 8) (0, col + 9) []]].
Definition file_with_let_a_at (col : nat) (txt : string) : Tree :=
  mkTree (mkNode "source_file" true (src txt) (0, 0) (0, col + 9) [let_a_at col]).


(** The [functions] dicts of [sample_file] and of a later version of it. *)
Definition sample_before : gmap pystr Entry :=
  functions (found (root_node sample_file)).
Definition sample_after : gmap pystr Entry :=
  functions (found (root_node (file_of [let_decl "add" "5"; let_decl "mul" "6"]))).

(** A let inside the body of a let: the inner one is never reached, the
    outer one alone is stored. *)
Definition let_in_let : Tree :=
  file_of
    [inner "let_declaration" "let f = { let g = 1; g }"
       [leaf "let" false "let";
        inner "let_binding" "f = { let g = 1; g }"
          [leaf "value_identifier" true "f";
           leaf "=" false "=";
           inner "block" "{ let g = 1; g }"
             [leaf "{" false "{";
              let_decl "g" "1";
              inner "expression_statement" "g" [leaf "value_identifier" true "g"];
              leaf "}" false "}"]]]].

(** [module M = { let (a, b) = (1, 2) }] *)
Definition pair_in_module : Tree := file_of [module_decl "M" [let_pair]].

(** [()] and [( )]: a unit value, whose two children are the parentheses. *)
Definition unit_tight : Node :=
  inner "unit" "()" [leaf "(" false "("; leaf ")" false ")"].
Definition unit_spaced : Node :=
  inner "unit" "( )" [leaf "(" false "("; leaf ")" false ")"].

(** [(1, 2)] laid out with or without a space after the comma. *)
Definition pair_of (layout : string) : Node :=
  inner "tuple" layout
    [leaf "(" false "("; leaf "number" true "1"; leaf "," false ",";
     leaf "number" true "2"; leaf ")" false ")"].

(** A string node whose text holds the byte FF between [a] and [b]. *)
Definition broken_leaf : Node :=
  mkNode "string" true [x61; xff; x62] (0, 0) (0, 0) [].

(** A file whose first child has text that is not UTF-8, and a let inside a
    block after it: the block is a child of the file, so the name the
    qualification looks for is the text of that first child. *)
Definition let_after_broken : Tree :=
  file_of [broken_leaf; inner "block" "{...}" [let_decl "add" "1"]].

(** A let declaration standing alone as the root of a tree. *)
Definition lone_let : Tree := mkTree (let_decl "a" "1").

(** * Properties *)

(** ** The order on names *)

Section order.

Lemma pystr_ltb_irrefl a : pystr_ltb a a = false.
Proof. induction a as [|x a IH]; simpl; [done|]. by rewrite N.ltb_irrefl. Qed.

Lemma pystr_ltb_cons x a y b :
  pystr_ltb (x :: a) (y :: b) = true ↔
  (x < y)%N ∨ (x = y ∧ pystr_ltb a b = true).
Proof.
  simpl. destruct (N.ltb_spec x y), (N.ltb_spec y x).
  - lia.
  - split; auto.
  - split; [done|]. intros [?|[? ?]]; [lia|subst; lia].
  - assert (x = y) as -> by lia. split; [auto|]. intros [?|[_ ?]]; [lia|done].
Qed.

Lemma pystr_ltb_trans a b c :
  pystr_ltb a b = true → pystr_ltb b c = true → pystr_ltb a c = true.
Proof.
  revert b c. induction a as [|x a IH]; intros [|y b] [|z c]; try done.
  rewrite !pystr_ltb_cons. intros [?|[-> ?]] [?|[-> ?]]; eauto with lia.
Qed.

Lemma pystr_ltb_trichotomy a b :
  pystr_ltb a b = true ∨ a = b ∨ pystr_ltb b a = true.
Proof.
  revert b. induction a as [|x a IH]; intros [|y b]; simpl; auto.
  destruct (N.ltb_spec x y), (N.ltb_spec y x); auto; try lia.
  assert (x = y) as -> by lia.
  destruct (IH b) as [?|[->|?]]; auto.
Qed.

Lemma pystr_ltb_asym a b : pystr_ltb a b = true → pystr_ltb b a = false.
Proof.
  intros Hab. destruct (pystr_ltb b a) eqn:Hba; [|done].
  pose proof (pystr_ltb_trans _ _ _ Hab Hba) as Haa.
  by rewrite pystr_ltb_irrefl in Haa.
Qed.

Global Instance pystr_le_total : Total pystr_le.
Proof.
  intros a b. unfold pystr_le.
  destruct (pystr_ltb_trichotomy a b) as [?|[->|?]];
    auto using pystr_ltb_asym, pystr_ltb_irrefl.
Qed.

Global Instance pystr_le_trans : Transitive pystr_le.
Proof.
  intros a b c. unfold pystr_le. intros Hba Hcb.
  destruct (pystr_ltb c a) eqn:Hca; [|done].
  destruct (pystr_ltb_trichotomy a b) as [Hab|[->|Hab]]; [|congruence..].
  pose proof (pystr_ltb_trans _ _ _ Hca Hab). congruence.
Qed.

Global Instance pystr_le_antisymm : AntiSymm (=) pystr_le.
Proof.
  intros a b. unfold pystr_le. intros Hba Hab.
  destruct (pystr_ltb_trichotomy a b) as [?|[->|?]]; congruence.
Qed.

Lemma pystr_le_ne_lt a b : pystr_le a b → a ≠ b → pystr_lt a b.
Proof.
  unfold pystr_le, pystr_lt. intros Hba Hne.
  destruct (pystr_ltb_trichotomy a b) as [?|[->|?]]; congruence.
Qed.

End order.

(** ** [sorted] *)

Section sorted_facts.
Implicit Types s : gset pystr.

Lemma sorted_perm s : sorted s ≡ₚ elements s.
Proof. apply merge_sort_Permutation. Qed.

Lemma elem_of_sorted s n : n ∈ sorted s ↔ n ∈ s.
Proof. by rewrite sorted_perm, elem_of_elements. Qed.

Lemma sorted_NoDup s : NoDup (sorted s).
Proof. rewrite sorted_perm. apply NoDup_elements. Qed.

Lemma sorted_empty : sorted ∅ = [].
Proof. unfold sorted. by rewrite elements_empty. Qed.

(** A duplicate-free list sorted by [<=] is strictly ascending. *)
Lemma strictly_ascending (l : list pystr) :
  StronglySorted pystr_le l → NoDup l → StronglySorted pystr_lt l.
Proof.
  induction 1 as [|x l Hl IH Hx]; intros Hnd; [constructor|].
  apply NoDup_cons in Hnd as [Hnotin Hnd]. constructor; [by apply IH|].
  rewrite Forall_forall in Hx |- *. intros y Hy.
  apply pystr_le_ne_lt; [by apply Hx|]. intros ->. done.
Qed.

Lemma sorted_ascending s : StronglySorted pystr_lt (sorted s).
Proof.
  apply strictly_ascending; [|apply sorted_NoDup].
  apply StronglySorted_merge_sort; apply _.
Qed.

Lemma ascending_NoDup (l : list pystr) : StronglySorted pystr_lt l → NoDup l.
Proof.
  induction 1 as [|x l Hl IH Hx]; constructor; [|done].
  intros Hin. rewrite Forall_forall in Hx. specialize (Hx _ Hin).
  unfold pystr_lt in Hx. by rewrite pystr_ltb_irrefl in Hx.
Qed.

Lemma ascending_filter (P : pystr → Prop) `{!∀ x, Decision (P x)} (l : list pystr) :
  StronglySorted pystr_lt l → StronglySorted pystr_lt (filter P l).
Proof.
  induction 1 as [|x l Hl IH Hx]; [constructor|].
  rewrite filter_cons. case_decide; [|done].
  constructor; [done|]. rewrite Forall_forall in Hx |- *.
  intros y [_ Hy]%list_elem_of_filter. by apply Hx.
Qed.

End sorted_facts.

(** ** The diff engine in closed form *)

Section diff_engine.
Implicit Types before after d : gmap pystr Entry.

Lemma getitem_dom d n : n ∈ dom d → getitem d n = Returns (d !!! n).
Proof.
  intros [e He]%elem_of_dom. unfold getitem.
  by rewrite (lookup_total_correct _ _ _ He), He.
Qed.

(** No KeyError: every name comes from the key set of the dict it indexes. *)
Lemma with_body_returns d names :
  Forall (λ n, n ∈ dom d) names →
  with_body d names = Returns (named_body d <$> names).
Proof.
  induction 1 as [|n names Hn _ IH]; simpl; [done|].
  by rewrite getitem_dom, IH.
Qed.

Lemma modified_loop_returns before after names acc :
  Forall (λ n, n ∈ dom before) names →
  Forall (λ n, n ∈ dom after) names →
  modified_loop before after names acc =
    Returns (acc ++ (modified_entry before after <$> filter (differs before after) names)).
Proof.
  intros Hb. revert acc. induction Hb as [|n names Hn _ IH]; intros acc Ha; simpl.
  { by rewrite app_nil_r. }
  apply Forall_cons in Ha as [Hn' Ha].
  rewrite !getitem_dom by done. unfold and_then. rewrite filter_cons.
  destruct (signature_eqb _ _) eqn:E; simpl negb; cbv iota.
  - apply signature_eqb_eq in E. rewrite decide_False by (by intros H; apply H).
    by apply IH.
  - rewrite decide_True.
    + rewrite IH by done. by rewrite <- app_assoc.
    + intros H. apply signature_eqb_eq in H. congruence.
Qed.

Lemma diff_components_returns before after :
  diff_components before after =
    Returns (mkDiff
      (named_body after <$> sorted (dom after ∖ dom before))
      (named_body before <$> sorted (dom before ∖ dom after))
      (modified_entry before after <$>
         filter (differs before after) (sorted (dom before ∩ dom after)))).
Proof.
  unfold diff_components.
  rewrite !with_body_returns, modified_loop_returns; simpl; [done|..];
    apply Forall_forall; intros n Hn%elem_of_sorted;
    first [ by apply elem_of_intersection in Hn as [? ?]
          | by apply elem_of_difference in Hn as [? ?] ].
Qed.

Lemma named_body_names d (names : list pystr) : (named_body d <$> names).*1 = names.
Proof. rewrite <- list_fmap_compose. apply list_fmap_id. Qed.

Lemma modified_entry_names before after (names : list pystr) :
  modified_name <$> (modified_entry before after <$> names) = names.
Proof. rewrite <- list_fmap_compose. apply list_fmap_id. Qed.

End diff_engine.

(** ** Trees *)

Lemma node_size_eq node : node_size node = S (total_size (children node)).
Proof.
  by destruct node.
Qed.

Lemma total_size_app l1 l2 : total_size (l1 ++ l2) = total_size l1 + total_size l2.
Proof. induction l1 as [|c l1 IH]; simpl; [done|]. rewrite IH. lia. Qed.

Lemma total_size_named node : total_size (named_children node) < node_size node.
Proof.
  rewrite node_size_eq. unfold named_children.
  induction (children node) as [|c cs IH]; simpl; [lia|].
  rewrite filter_cons. case_decide; simpl; lia.
Qed.

(** [ast_to_tuple] as the source writes it, over the list of named children. *)
Lemma ast_to_tuple_eq node :
  ast_to_tuple node =
    match named_children node with
    | [] => SigText (type node) (decode_ignore (text node))
    | _ :: _ => SigTuple (type node) (ast_to_tuple <$> named_children node)
    end.
Proof.
  destruct node as [ty nm tx sp ep cs]. unfold named_children. simpl.
  assert ((fix over (cs : list Node) : list signature :=
             match cs with
             | [] => []
             | c :: cs' => if is_named c then ast_to_tuple c :: over cs' else over cs'
             end) cs = ast_to_tuple <$> filter (λ c, is_named c) cs) as ->.
  { induction cs as [|c cs IH]; [done|]. rewrite filter_cons.
    destruct (is_named c); simpl; by rewrite IH. }
  by destruct (filter _ cs).
Qed.

(** ** The traversal *)

Lemma document_order_eq ancestors node :
  document_order ancestors node =
    (ancestors, node) :: (children node ≫= document_order (node :: ancestors)).
Proof.
  by destruct node.
Qed.

Lemma reached_eq ancestors node :
  reached ancestors node =
    (ancestors, node) ::
    if decide (is_declaration node) then []
    else named_children node ≫= reached (node :: ancestors).
Proof.
  destruct node as [ty nm tx sp ep cs]. unfold named_children. simpl. f_equal.
  case_decide as Hdecl; [done|]. clear Hdecl.
  generalize (mkNode ty nm tx sp ep cs :: ancestors). intros above.
  induction cs as [|c cs IH]; [done|]. rewrite filter_cons, IH.
  by destruct (is_named c).
Qed.

Lemma push_children_eq ancestors node stack :
  push_children ancestors node stack =
    ((λ c, (node :: ancestors, c)) <$> named_children node) ++ stack.
Proof.
  unfold push_children, named_children.
  induction (children node) as [|c cs IH]; [done|].
  rewrite reverse_cons, foldl_app, IH, filter_cons. simpl.
  by destruct (is_named c).
Qed.

Section traversal.

Lemma visit_all_app l1 l2 m :
  visit_all (l1 ++ l2) m = do m' <- visit_all l1 m; visit_all l2 m'.
Proof.
  revert m. induction l1 as [|loc l1 IH]; intros m; simpl; [done|].
  case_decide; [done|]. apply IH.
Qed.

Lemma visit_all_returns locs m :
  Forall (λ loc, ¬ orphan_let loc) locs →
  visit_all locs m = Returns (foldl record m locs).
Proof.
  intros H. revert m. induction H as [|loc locs Hloc _ IH]; intros m; simpl; [done|].
  rewrite decide_False by done. apply IH.
Qed.

(** Case analysis on the name found, as [if name:] does. *)
Local Ltac by_name_cases IH :=
  match goal with
  | |- context [usable ?name] =>
      destruct name as [[|? ?]|]; cbn [usable]; apply IH; lia
  end.

(** The loop processes what is reached from its stack, slot by slot from
    the top, as long as it is given one step per node. *)
Lemma extract_loop_visits steps stack m :
  (total_size stack.*2 ≤ steps)%nat →
  extract_loop steps stack m = visit_all (stack ≫= reached_from) m.
Proof.
  revert stack m. induction steps as [|steps IH]; intros [|[anc node] stack] m Hsize;
    try done.
  { simpl in Hsize. rewrite node_size_eq in Hsize. lia. }
  cbn [fmap list_fmap snd total_size] in Hsize.
  pose proof (node_size_eq node) as Hpos.
  rewrite bind_cons. unfold reached_from at 1. cbn [fst snd].
  rewrite reached_eq. cbn [extract_loop].
  destruct (decide (type node = "let_declaration")) as [Hlet|Hlet].
  - rewrite decide_True by (by left). simpl app. cbn [visit_all].
    unfold orphan_let, record, function_key. cbn [fst snd].
    rewrite (decide_True (P := type node = _)) by done.
    destruct anc as [|parent above].
    + by rewrite decide_True.
    + rewrite (decide_False (P := _ ∧ _)) by (by intros [_ ?]).
      unfold type_key, external_key. cbn [fst snd].
      rewrite !(decide_True (P := type node = "let_declaration")) by done.
      by_name_cases IH.
  - destruct (decide (type node = "type_declaration")) as [Hty|Hty].
    { rewrite decide_True by (right; by left). simpl app. cbn [visit_all].
      unfold orphan_let, record, function_key, type_key, external_key. cbn [fst snd].
      rewrite (decide_False (P := _ ∧ _)) by (by intros [? _]).
      rewrite !(decide_False (P := type node = "let_declaration")) by done.
      rewrite !(decide_True (P := type node = "type_declaration")) by done.
      by_name_cases IH. }
    destruct (decide (type node = "external_declaration")) as [Hext|Hext].
    { rewrite decide_True by (right; by right). simpl app. cbn [visit_all].
      unfold orphan_let, record, function_key, type_key, external_key. cbn [fst snd].
      rewrite (decide_False (P := _ ∧ _)) by (by intros [? _]).
      rewrite !(decide_False (P := type node = "let_declaration")) by done.
      rewrite !(decide_False (P := type node = "type_declaration")) by done.
      rewrite (decide_True (P := type node = "external_declaration")) by done.
      by_name_cases IH. }
    rewrite decide_False by (intros [?|[?|?]]; done).
    rewrite <- app_comm_cons. cbn [visit_all].
    unfold orphan_let, record, function_key, type_key, external_key. cbn [fst snd].
    rewrite (decide_False (P := _ ∧ _)) by (by intros [? _]).
    rewrite !(decide_False (P := type node = "let_declaration")) by done.
    rewrite !(decide_False (P := type node = "type_declaration")) by done.
    rewrite !(decide_False (P := type node = "external_declaration")) by done.
    rewrite push_children_eq, IH.
    + rewrite bind_app. f_equal. f_equal.
      induction (named_children node) as [|c cs IHcs]; [done|].
      rewrite fmap_cons, !bind_cons, IHcs. done.
    + rewrite fmap_app, total_size_app, <- list_fmap_compose.
      pose proof (total_size_named node) as Hlt.
      replace (snd ∘ (λ c, (node :: anc, c)) <$> named_children node)
        with (named_children node) by (by rewrite list_fmap_id).
      lia.
Qed.

Lemma extract_components_visits root :
  extract_components root = visit_all (reached [] root) (mkComponents ∅ ∅ ∅).
Proof.
  unfold extract_components. rewrite extract_loop_visits by (simpl; lia).
  cbn [mbind list_bind]. unfold reached_from. cbn [fst snd]. by rewrite app_nil_r.
Qed.

End traversal.

(** ** Which nodes are reached *)

Section reached_facts.

Lemma reached_sublist ancestors node :
  reached ancestors node `sublist_of` document_order ancestors node.
Proof.
  revert ancestors. induction node as [node IH] using node_nested_ind.
  intros ancestors. rewrite reached_eq, document_order_eq.
  apply sublist_skip. case_decide; [apply sublist_nil_l|].
  unfold named_children. induction IH as [|c cs Hc _ IHcs]; [done|].
  rewrite filter_cons, (bind_cons _ c cs). case_decide.
  - rewrite bind_cons. by apply sublist_app.
  - by apply sublist_inserts_l.
Qed.

(** Below the starting node, the ancestors gained on the way down are
    nodes the loop descended through: none is a declaration. *)
Lemma reached_ancestors ancestors node loc :
  loc ∈ reached ancestors node →
  ∃ path, loc.1 = path ++ ancestors
          ∧ Forall (λ a, ¬ is_declaration a) path
          ∧ (path = [] → loc = (ancestors, node)).
Proof.
  revert ancestors. induction node as [node IH] using node_nested_ind.
  intros ancestors. rewrite reached_eq, elem_of_cons. intros [->|Hin].
  { by exists []. }
  case_decide as Hdecl; [by apply elem_of_nil in Hin|].
  apply list_elem_of_bind in Hin as (c & Hin & Hc).
  apply list_elem_of_filter in Hc as [_ Hc].
  rewrite Forall_forall in IH.
  destruct (IH c Hc _ Hin) as (path & Hpath & Hnone & _).
  exists (path ++ [node]). rewrite <- app_assoc. split; [done|]. split.
  - apply Forall_app. split; [done|]. by constructor.
  - by intros [_ ?]%app_nil.
Qed.

Lemma reached_no_orphan root :
  type root ≠ "let_declaration" →
  Forall (λ loc, ¬ orphan_let loc) (reached [] root).
Proof.
  intros Hroot. apply Forall_forall. intros loc Hin [Hlet Hnil].
  apply reached_ancestors in Hin as (path & Hpath & _ & Hloc).
  rewrite app_nil_r in Hpath. rewrite Hnil in Hpath. symmetry in Hpath.
  rewrite (Hloc Hpath) in Hlet. done.
Qed.

Lemma category_keys_exclusive loc :
  (is_Some (function_key loc) → type_key loc = None ∧ external_key loc = None)
  ∧ (is_Some (type_key loc) → external_key loc = None).
Proof.
  unfold function_key, type_key, external_key.
  repeat case_decide; split; intros [? ?]; done.
Qed.

End reached_facts.

(** ** What the dicts hold after a run of iterations *)

Section last_write.
Variable get : Components → gmap pystr Entry.
Variable key : Located → option pystr.
Hypothesis record_get : ∀ m loc k,
  get (record m loc) !! k =
    if decide (key loc = Some k) then Some (entry_of loc.2) else get m !! k.

Lemma foldl_record_lookup locs m k :
  get (foldl record m locs) !! k =
    match last (filter (λ loc, key loc = Some k) locs) with
    | Some loc => Some (entry_of loc.2)
    | None => get m !! k
    end.
Proof.
  induction locs as [|loc locs IH] using rev_ind; [done|].
  rewrite foldl_snoc, record_get, filter_app, filter_cons, filter_nil.
  case_decide.
  - by rewrite last_snoc.
  - by rewrite app_nil_r.
Qed.
End last_write.

Section record_facts.

Local Ltac insert_cases :=
  let Hd := fresh "Hd" in
  case_decide as Hd;
  [ injection Hd as ->; by rewrite lookup_insert_eq
  | rewrite lookup_insert_ne; [done|congruence] ].

Lemma record_functions m loc k :
  functions (record m loc) !! k =
    if decide (function_key loc = Some k) then Some (entry_of loc.2)
    else functions m !! k.
Proof.
  unfold record. destruct (function_key loc) as [k'|] eqn:Hk.
  - cbn [set_function functions]. insert_cases.
  - rewrite decide_False by done.
    by destruct (type_key loc), (external_key loc).
Qed.

Lemma record_types m loc k :
  types (record m loc) !! k =
    if decide (type_key loc = Some k) then Some (entry_of loc.2)
    else types m !! k.
Proof.
  pose proof (category_keys_exclusive loc) as [Hf _].
  unfold record. destruct (function_key loc) as [kf|] eqn:Hk.
  { destruct Hf as [-> _]; [done|]. by rewrite decide_False. }
  destruct (type_key loc) as [k'|].
  - cbn [set_type types]. insert_cases.
  - rewrite decide_False by done. by destruct (external_key loc).
Qed.

Lemma record_externals m loc k :
  externals (record m loc) !! k =
    if decide (external_key loc = Some k) then Some (entry_of loc.2)
    else externals m !! k.
Proof.
  pose proof (category_keys_exclusive loc) as [Hf Ht].
  unfold record. destruct (function_key loc) as [kf|] eqn:Hk.
  { destruct Hf as [_ ->]; [done|]. by rewrite decide_False. }
  destruct (type_key loc) as [kt|].
  { rewrite Ht by done. by rewrite decide_False. }
  destruct (external_key loc) as [k'|].
  - cbn [set_external externals]. insert_cases.
  - by rewrite decide_False.
Qed.

(** Extraction returns unless the root itself is a let declaration, and
    then each dict holds, per key, the entry of the last reached node
    stored under that key. *)
Lemma extract_components_returns root :
  type root ≠ "let_declaration" →
  extract_components root =
    Returns (foldl record (mkComponents ∅ ∅ ∅) (reached [] root)).
Proof.
  intros Hroot. rewrite extract_components_visits.
  by apply visit_all_returns, reached_no_orphan.
Qed.

Lemma extract_components_raises root :
  type root = "let_declaration" → extract_components root = Raises.
Proof.
  intros Hroot. rewrite extract_components_visits, reached_eq. simpl.
  by rewrite decide_True.
Qed.

End record_facts.

(** ** The diff engine: partition, order, self-diff *)

Section diff_properties.
Implicit Types before after d : gmap pystr Entry.

Lemma differs_common before after n :
  n ∈ dom before → n ∈ dom after →
  differs before after n ↔ ast_repr <$> before !! n ≠ ast_repr <$> after !! n.
Proof.
  intros [e1 H1]%elem_of_dom [e2 H2]%elem_of_dom. unfold differs.
  rewrite (lookup_total_correct _ _ _ H1), (lookup_total_correct _ _ _ H2), H1, H2.
  simpl. split; [congruence|]. intros H Heq. apply H. by rewrite Heq.
Qed.

Lemma filter_none {A} (P : A → Prop) `{!∀ x, Decision (P x)} (l : list A) :
  Forall (λ x, ¬ P x) l → filter P l = [].
Proof.
  induction 1 as [|x l Hx _ IH]; [done|]. by rewrite filter_cons, decide_False.
Qed.

Lemma diff_components_same d :
  diff_components d d = Returns (mkDiff [] [] []).
Proof.
  rewrite diff_components_returns, difference_diag_L, sorted_empty.
  rewrite filter_none; [done|]. apply Forall_forall. intros n _ H. by apply H.
Qed.

Lemma diff_components_from_empty d :
  diff_components ∅ d =
    Returns (mkDiff (named_body d <$> sorted (dom d)) [] []).
Proof.
  rewrite diff_components_returns, dom_empty_L.
  by rewrite difference_empty_L, difference_disjoint_L, intersection_empty_l_L,
    sorted_empty by set_solver.
Qed.

Lemma diff_components_to_empty d :
  diff_components d ∅ =
    Returns (mkDiff [] (named_body d <$> sorted (dom d)) []).
Proof.
  rewrite diff_components_returns, dom_empty_L.
  by rewrite difference_empty_L, difference_disjoint_L, intersection_empty_r_L,
    sorted_empty by set_solver.
Qed.

End diff_properties.

Lemma ascending_sorted (s : gset pystr) : ascending (sorted s).
Proof. split; [apply sorted_ascending|apply sorted_NoDup]. Qed.

Lemma ascending_sorted_filter (P : pystr → Prop) `{!∀ x, Decision (P x)}
    (s : gset pystr) : ascending (filter P (sorted s)).
Proof.
  split; [apply ascending_filter, sorted_ascending|apply NoDup_filter, sorted_NoDup].
Qed.

Lemma ascending_nil : ascending [].
Proof. split; constructor. Qed.

(** C1: [diff_components] returns for every pair of dicts, and the names of
    its added, deleted and modified lists together with the unchanged common
    names (equal signatures) are pairwise disjoint and make up exactly the
    union of the two key sets. *)
Theorem diff_components_partition (before after : gmap pystr Entry) :
  ∃ d, diff_components before after = Returns d ∧
    let A := added_names d in
    let D := deleted_names d in
    let M := modified_names d in
    let U := unchanged_names before after in
    A ## D ∧ A ## M ∧ A ## U ∧ D ## M ∧ D ## U ∧ M ## U
    ∧ A ∪ D ∪ M ∪ U = dom before ∪ dom after.
Proof.
  eexists. split; [apply diff_components_returns|].
  unfold added_names, deleted_names, modified_names, unchanged_names. cbn [added deleted modified].
  rewrite !named_body_names, modified_entry_names.
  assert (∀ n, n ∈ (list_to_set (sorted (dom after ∖ dom before)) : gset pystr)
               ↔ n ∈ dom after ∧ n ∉ dom before) as HA.
  { intros n. by rewrite elem_of_list_to_set, elem_of_sorted, elem_of_difference. }
  assert (∀ n, n ∈ (list_to_set (sorted (dom before ∖ dom after)) : gset pystr)
               ↔ n ∈ dom before ∧ n ∉ dom after) as HD.
  { intros n. by rewrite elem_of_list_to_set, elem_of_sorted, elem_of_difference. }
  assert (∀ n, n ∈ (list_to_set (filter (differs before after)
                                   (sorted (dom before ∩ dom after))) : gset pystr)
               ↔ (n ∈ dom before ∧ n ∈ dom after)
                 ∧ ast_repr <$> before !! n ≠ ast_repr <$> after !! n) as HM.
  { intros n. rewrite elem_of_list_to_set, list_elem_of_filter, elem_of_sorted,
      elem_of_intersection.
    split.
    - intros [Hd [Hb Ha]]. split; [done|]. by apply (differs_common before after n Hb Ha).
    - intros [[Hb Ha] Hd]. split; [|done]. by apply (differs_common before after n Hb Ha). }
  assert (∀ n, n ∈ filter (λ n, ast_repr <$> before !! n = ast_repr <$> after !! n)
                     (dom before ∩ dom after)
               ↔ (n ∈ dom before ∧ n ∈ dom after)
                 ∧ ast_repr <$> before !! n = ast_repr <$> after !! n) as HU.
  { intros n. rewrite elem_of_filter, elem_of_intersection. tauto. }
  repeat split; try (apply elem_of_disjoint; intros n;
    rewrite ?HA, ?HD, ?HM, ?HU; tauto).
  apply set_eq. intros n. rewrite !elem_of_union, HA, HD, HM, HU.
  destruct (decide (n ∈ dom before)), (decide (n ∈ dom after)),
    (decide (ast_repr <$> before !! n = ast_repr <$> after !! n)); tauto.
Qed.

(** ** The two entry points in closed form *)

Section entry_points.

Lemma with_body_all d : with_body d (sorted (dom d)) = Returns (all_of d).
Proof.
  apply with_body_returns, Forall_forall. intros n. by rewrite elem_of_sorted.
Qed.

Lemma elem_of_all_of d n t :
  (n, t) ∈ all_of d ↔ ∃ e, d !! n = Some e ∧ t = body_text e.
Proof.
  unfold all_of, named_body. rewrite list_elem_of_fmap. split.
  - intros (k & Heq & Hk). injection Heq as -> ->.
    apply elem_of_sorted, elem_of_dom in Hk as [e He]. exists e.
    by rewrite (lookup_total_correct _ _ _ He).
  - intros (e & He & ->). exists n.
    split; [by rewrite (lookup_total_correct _ _ _ He)|].
    apply elem_of_sorted, elem_of_dom. by exists e.
Qed.

Lemma process_single_file_deleted changes file_ast :
  type (root_node file_ast) ≠ "let_declaration" →
  process_single_file changes file_ast (lit "deleted") =
    let f := found (root_node file_ast) in
    Returns (mkChanges (moduleName changes)
      (addedFunctions changes) (modifiedFunctions changes) (all_of (functions f))
      (addedTypes changes) (modifiedTypes changes) (all_of (types f))
      (addedExternals changes) (modifiedExternals changes) (all_of (externals f))).
Proof.
  intros Hroot. unfold process_single_file.
  rewrite extract_components_returns by done. cbn [and_then].
  rewrite decide_True by done. by rewrite !with_body_all.
Qed.

Lemma process_single_file_other changes file_ast mode :
  mode ≠ lit "deleted" →
  type (root_node file_ast) ≠ "let_declaration" →
  process_single_file changes file_ast mode =
    let f := found (root_node file_ast) in
    Returns (mkChanges (moduleName changes)
      (all_of (functions f)) (modifiedFunctions changes) (deletedFunctions changes)
      (all_of (types f)) (modifiedTypes changes) (deletedTypes changes)
      (all_of (externals f)) (modifiedExternals changes) (deletedExternals changes)).
Proof.
  intros Hmode Hroot. unfold process_single_file.
  rewrite extract_components_returns by done. cbn [and_then].
  rewrite decide_False by done. by rewrite !with_body_all.
Qed.

Lemma compare_two_files_returns changes old_file_ast new_file_ast :
  type (root_node old_file_ast) ≠ "let_declaration" →
  type (root_node new_file_ast) ≠ "let_declaration" →
  ∃ df dt de,
    diff_components (functions (found (root_node old_file_ast)))
                    (functions (found (root_node new_file_ast))) = Returns df
    ∧ diff_components (types (found (root_node old_file_ast)))
                      (types (found (root_node new_file_ast))) = Returns dt
    ∧ diff_components (externals (found (root_node old_file_ast)))
                      (externals (found (root_node new_file_ast))) = Returns de
    ∧ compare_two_files changes old_file_ast new_file_ast =
        Returns (mkChanges (moduleName changes)
          (added df) (modified df) (deleted df)
          (added dt) (modified dt) (deleted dt)
          (added de) (modified de) (deleted de)).
Proof.
  intros Hold Hnew. unfold compare_two_files.
  rewrite !extract_components_returns by done. cbn [and_then]. fold (found (root_node old_file_ast)).
  fold (found (root_node new_file_ast)).
  do 3 eexists. split_and!; try apply diff_components_returns.
  by rewrite !diff_components_returns.
Qed.

Lemma found_empty_tree : found (root_node empty_tree) = mkComponents ∅ ∅ ∅.
Proof. reflexivity. Qed.

End entry_points.

(** C4: on a tree the parser can produce (its root is not itself a let
    declaration), single-version mode [deleted] and the two-version compare
    against the empty tree both return, with the same three deleted lists;
    and mode [added] gives the three added lists of the compare of the empty
    tree against the tree.  The reports they start from need not be the
    same. *)
Theorem single_file_is_compare_with_empty (single_changes both_changes : DetailedChanges)
    (T : Tree) :
  type (root_node T) ≠ "let_declaration" →
  (∃ single both,
      process_single_file single_changes T (lit "deleted") = Returns single
      ∧ compare_two_files both_changes T empty_tree = Returns both
      ∧ deletedFunctions single = deletedFunctions both
      ∧ deletedTypes single = deletedTypes both
      ∧ deletedExternals single = deletedExternals both)
  ∧ (∃ single both,
      process_single_file single_changes T (lit "added") = Returns single
      ∧ compare_two_files both_changes empty_tree T = Returns both
      ∧ addedFunctions single = addedFunctions both
      ∧ addedTypes single = addedTypes both
      ∧ addedExternals single = addedExternals both).
Proof.
  intros Hroot. split.
  - destruct (compare_two_files_returns both_changes T empty_tree Hroot)
      as (df & dt & de & Hf & Ht & He & ->); [done|].
    rewrite process_single_file_deleted by done.
    rewrite found_empty_tree in Hf, Ht, He. cbn [functions types externals] in Hf, Ht, He.
    rewrite diff_components_to_empty in Hf, Ht, He.
    injection Hf as <-. injection Ht as <-. injection He as <-.
    do 2 eexists. split_and!; reflexivity.
  - destruct (compare_two_files_returns both_changes empty_tree T)
      as (df & dt & de & Hf & Ht & He & ->); [done..|].
    rewrite process_single_file_other by done.
    rewrite found_empty_tree in Hf, Ht, He. cbn [functions types externals] in Hf, Ht, He.
    rewrite diff_components_from_empty in Hf, Ht, He.
    injection Hf as <-. injection Ht as <-. injection He as <-.
    do 2 eexists. split_and!; reflexivity.
Qed.

Lemma single_file_is_compare_with_empty_witness :
  (∃ single both,
      process_single_file (new_changes (lit "M")) sample_file (lit "deleted") = Returns single
      ∧ compare_two_files (new_changes (lit "M")) sample_file empty_tree = Returns both
      ∧ deletedFunctions single = deletedFunctions both
      ∧ deletedTypes single = deletedTypes both
      ∧ deletedExternals single = deletedExternals both)
  ∧ (∃ single both,
      process_single_file (new_changes (lit "M")) sample_file (lit "added") = Returns single
      ∧ compare_two_files (new_changes (lit "M")) empty_tree sample_file = Returns both
      ∧ addedFunctions single = addedFunctions both
      ∧ addedTypes single = addedTypes both
      ∧ addedExternals single = addedExternals both).
Proof.
  apply (single_file_is_compare_with_empty (new_changes (lit "M")) (new_changes (lit "M"))
           sample_file).
  vm_compute. discriminate.
Defined.

(** C5: comparing a tree the parser can produce with itself returns a report
    whose nine lists are all empty. *)
Theorem compare_with_itself_is_empty (changes : DetailedChanges) (T : Tree) :
  type (root_node T) ≠ "let_declaration" →
  compare_two_files changes T T = Returns (new_changes (moduleName changes)).
Proof.
  intros Hroot.
  destruct (compare_two_files_returns changes T T Hroot Hroot)
    as (df & dt & de & Hf & Ht & He & ->).
  rewrite diff_components_same in Hf, Ht, He.
  injection Hf as <-. injection Ht as <-. injection He as <-. done.
Qed.

Lemma compare_with_itself_is_empty_witness :
  compare_two_files (new_changes (lit "M")) sample_file sample_file
    = Returns (new_changes (lit "M")).
Proof.
  apply (compare_with_itself_is_empty (new_changes (lit "M")) sample_file).
  vm_compute. discriminate.
Defined.

(** ** Order of the lists *)

Lemma all_of_ascending (d : gmap pystr Entry) : ascending (all_of d).*1.
Proof. unfold all_of. rewrite named_body_names. apply ascending_sorted. Qed.

(** C8: every list the diff engine returns, and every list of the report of
    single-version mode on a new [RescriptFileDiff], is strictly ascending
    in the declaration name: sorted and free of duplicates. *)
Theorem lists_ascending (before after : gmap pystr Entry)
    (module_name mode : pystr) (T : Tree) :
  type (root_node T) ≠ "let_declaration" →
  (∃ d, diff_components before after = Returns d
        ∧ ascending (added d).*1
        ∧ ascending (deleted d).*1
        ∧ ascending (modified_name <$> modified d))
  ∧ (∃ r, process_single_file (new_changes module_name) T mode = Returns r
        ∧ ascending (addedFunctions r).*1
        ∧ ascending (deletedFunctions r).*1
        ∧ ascending (modified_name <$> modifiedFunctions r)
        ∧ ascending (addedTypes r).*1
        ∧ ascending (deletedTypes r).*1
        ∧ ascending (modified_name <$> modifiedTypes r)
        ∧ ascending (addedExternals r).*1
        ∧ ascending (deletedExternals r).*1
        ∧ ascending (modified_name <$> modifiedExternals r)).
Proof.
  intros Hroot. split.
  - eexists. split; [apply diff_components_returns|]. cbn [added deleted modified].
    rewrite !named_body_names, modified_entry_names.
    split_and!; [apply ascending_sorted..|apply ascending_sorted_filter; apply _].
  - destruct (decide (mode = lit "deleted")) as [->|Hmode].
    + rewrite process_single_file_deleted by done. eexists. split; [done|].
      cbn. split_and!; first [apply all_of_ascending | apply ascending_nil].
    + rewrite process_single_file_other by done. eexists. split; [done|].
      cbn. split_and!; first [apply all_of_ascending | apply ascending_nil].
Qed.

Lemma lists_ascending_witness :
  (∃ d, diff_components sample_before sample_after = Returns d
        ∧ ascending (added d).*1
        ∧ ascending (deleted d).*1
        ∧ ascending (modified_name <$> modified d))
  ∧ (∃ r, process_single_file (new_changes (lit "M")) sample_file (lit "added") = Returns r
        ∧ ascending (addedFunctions r).*1
        ∧ ascending (deletedFunctions r).*1
        ∧ ascending (modified_name <$> modifiedFunctions r)
        ∧ ascending (addedTypes r).*1
        ∧ ascending (deletedTypes r).*1
        ∧ ascending (modified_name <$> modifiedTypes r)
        ∧ ascending (addedExternals r).*1
        ∧ ascending (deletedExternals r).*1
        ∧ ascending (modified_name <$> modifiedExternals r)).
Proof.
  apply (lists_ascending sample_before sample_after (lit "M") (lit "added") sample_file).
  vm_compute. discriminate.
Defined.

(** ** Single-version mode *)

(** C10: on a new [RescriptFileDiff] and a tree the parser can produce, any
    mode other than the string deleted puts every extracted declaration, in
    name order, in the added list of its category and leaves the deleted
    (and modified) lists empty: a pair is in an added list exactly when its
    name is a key of the extracted dict of that category and its text is
    that entry's, and the names of each added list are strictly
    ascending. *)
Theorem other_modes_are_added (module_name mode : pystr) (T : Tree) :
  mode ≠ lit "deleted" →
  type (root_node T) ≠ "let_declaration" →
  ∃ f, extract_components (root_node T) = Returns f
    ∧ process_single_file (new_changes module_name) T mode =
        Returns (mkChanges module_name
          (named_body (functions f) <$> sorted (dom (functions f))) [] []
          (named_body (types f) <$> sorted (dom (types f))) [] []
          (named_body (externals f) <$> sorted (dom (externals f))) [] [])
    ∧ ∃ r, process_single_file (new_changes module_name) T mode = Returns r
        ∧ moduleName r = module_name
        ∧ (∀ n t, (n, t) ∈ addedFunctions r ↔
             ∃ e, functions f !! n = Some e ∧ t = body_text e)
        ∧ (∀ n t, (n, t) ∈ addedTypes r ↔
             ∃ e, types f !! n = Some e ∧ t = body_text e)
        ∧ (∀ n t, (n, t) ∈ addedExternals r ↔
             ∃ e, externals f !! n = Some e ∧ t = body_text e)
        ∧ ascending (addedFunctions r).*1
        ∧ ascending (addedTypes r).*1
        ∧ ascending (addedExternals r).*1
        ∧ deletedFunctions r = [] ∧ deletedTypes r = [] ∧ deletedExternals r = []
        ∧ modifiedFunctions r = [] ∧ modifiedTypes r = [] ∧ modifiedExternals r = [].
Proof.
  intros Hmode Hroot. exists (found (root_node T)).
  split; [by apply extract_components_returns|].
  rewrite process_single_file_other by done.
  split; [done|]. eexists. split; [reflexivity|]. cbn.
  split_and!; try done; try apply elem_of_all_of; apply all_of_ascending.
Qed.

Lemma other_modes_are_added_witness :
  ∃ f, extract_components (root_node sample_file) = Returns f
    ∧ process_single_file (new_changes (lit "M")) sample_file (lit "delete") =
        Returns (mkChanges (lit "M")
          (named_body (functions f) <$> sorted (dom (functions f))) [] []
          (named_body (types f) <$> sorted (dom (types f))) [] []
          (named_body (externals f) <$> sorted (dom (externals f))) [] [])
    ∧ ∃ r, process_single_file (new_changes (lit "M")) sample_file (lit "delete") = Returns r
        ∧ moduleName r = lit "M"
        ∧ (∀ n t, (n, t) ∈ addedFunctions r ↔
             ∃ e, functions f !! n = Some e ∧ t = body_text e)
        ∧ (∀ n t, (n, t) ∈ addedTypes r ↔
             ∃ e, types f !! n = Some e ∧ t = body_text e)
        ∧ (∀ n t, (n, t) ∈ addedExternals r ↔
             ∃ e, externals f !! n = Some e ∧ t = body_text e)
        ∧ ascending (addedFunctions r).*1
        ∧ ascending (addedTypes r).*1
        ∧ ascending (addedExternals r).*1
        ∧ deletedFunctions r = [] ∧ deletedTypes r = [] ∧ deletedExternals r = []
        ∧ modifiedFunctions r = [] ∧ modifiedTypes r = [] ∧ modifiedExternals r = [].
Proof.
  apply (other_modes_are_added (lit "M") (lit "delete") sample_file).
  - vm_compute. discriminate.
  - vm_compute. discriminate.
Defined.

(** In [sample_file] every mode but deleted gives these added functions:
    the later top-level add, and the two lets of the module under their
    qualified names. *)
Example sample_file_added_functions :
  ∃ r, process_single_file (new_changes (lit "M")) sample_file (lit "added") = Returns r
    ∧ addedFunctions r = [(lit "M --> add", lit "let add = 2");
                          (lit "M --> sub", lit "let sub = 3");
                          (lit "add", lit "let add = 4")].
Proof. eexists. split; by vm_compute. Qed.

(** ** Extraction: order of the traversal and what it stores *)

Section found_facts.
Variable get : Components → gmap pystr Entry.
Variable key : Located → option pystr.
Hypothesis record_get : ∀ m loc k,
  get (record m loc) !! k =
    if decide (key loc = Some k) then Some (entry_of loc.2) else get m !! k.
Hypothesis get_empty : get (mkComponents ∅ ∅ ∅) = ∅.

Lemma found_lookup root k :
  get (found root) !! k =
    entry_of ∘ snd <$> last (filter (λ loc, key loc = Some k) (reached [] root)).
Proof.
  unfold found. rewrite (foldl_record_lookup get key record_get).
  destruct (last _); [done|]. by rewrite get_empty, lookup_empty.
Qed.

Lemma found_lookup_inv root k e :
  get (found root) !! k = Some e →
  ∃ loc, loc ∈ reached [] root ∧ key loc = Some k ∧ e = entry_of loc.2.
Proof.
  rewrite found_lookup. destruct (last _) as [loc|] eqn:Hlast; [|done].
  intros [= <-]. apply last_Some_elem_of, list_elem_of_filter in Hlast as [? ?].
  by exists loc.
Qed.
End found_facts.

(** C6: on a tree the parser can produce, the loop handles exactly the nodes
    of [reached], one after the other from first to last; these are nodes of
    the tree in document order (a subsequence of the pre-order listing of
    all nodes); and each dict holds under a key the entry of the last of
    them stored under that key, so of two declarations with one name the
    later in the document is kept. *)
Theorem later_declaration_wins (root : Node) :
  type root ≠ "let_declaration" →
  ∃ f, extract_components root = Returns f
    ∧ extract_components root = visit_all (reached [] root) (mkComponents ∅ ∅ ∅)
    ∧ reached [] root `sublist_of` document_order [] root
    ∧ ∀ k,
        functions f !! k =
          entry_of ∘ snd <$> last (filter (λ loc, function_key loc = Some k) (reached [] root))
        ∧ types f !! k =
          entry_of ∘ snd <$> last (filter (λ loc, type_key loc = Some k) (reached [] root))
        ∧ externals f !! k =
          entry_of ∘ snd <$> last (filter (λ loc, external_key loc = Some k) (reached [] root)).
Proof.
  intros Hroot. exists (found root).
  split; [by apply extract_components_returns|].
  split; [apply extract_components_visits|].
  split; [apply reached_sublist|].
  intros k. split_and!.
  - apply (found_lookup functions function_key record_functions eq_refl).
  - apply (found_lookup types type_key record_types eq_refl).
  - apply (found_lookup externals external_key record_externals eq_refl).
Qed.

Lemma later_declaration_wins_witness :
  ∃ f, extract_components (root_node sample_file) = Returns f
    ∧ extract_components (root_node sample_file) =
        visit_all (reached [] (root_node sample_file)) (mkComponents ∅ ∅ ∅)
    ∧ reached [] (root_node sample_file) `sublist_of` document_order [] (root_node sample_file)
    ∧ ∀ k,
        functions f !! k =
          entry_of ∘ snd <$> last (filter (λ loc, function_key loc = Some k)
                                     (reached [] (root_node sample_file)))
        ∧ types f !! k =
          entry_of ∘ snd <$> last (filter (λ loc, type_key loc = Some k)
                                     (reached [] (root_node sample_file)))
        ∧ externals f !! k =
          entry_of ∘ snd <$> last (filter (λ loc, external_key loc = Some k)
                                     (reached [] (root_node sample_file))).
Proof.
  apply (later_declaration_wins (root_node sample_file)).
  vm_compute. discriminate.
Defined.

(** In [sample_file] the name add is declared at top level twice, with 1
    and then with 4; the dict keeps the second. *)
Example sample_file_add :
  body_text <$> sample_before !! lit "add" = Some (lit "let add = 4").
Proof. vm_compute. reflexivity. Qed.

Section nesting.

Lemma reached_outside root loc :
  loc ∈ reached [] root → outside_declarations loc.
Proof.
  intros (path & Hpath & Hnone & _)%reached_ancestors.
  unfold outside_declarations. by rewrite Hpath, app_nil_r.
Qed.

Lemma reached_in_document root loc :
  loc ∈ reached [] root → loc ∈ document_order [] root.
Proof. intros H. eapply elem_of_sublist; [done|apply reached_sublist]. Qed.

Lemma declared_as_function loc k : function_key loc = Some k → declared_as loc = Some k.
Proof. unfold declared_as. by intros ->. Qed.

Lemma declared_as_type loc k : type_key loc = Some k → declared_as loc = Some k.
Proof.
  intros Hk. pose proof (category_keys_exclusive loc) as [Hf _].
  unfold declared_as. destruct (function_key loc); [|by rewrite Hk].
  destruct Hf as [Hnone _]; [done|]. congruence.
Qed.

Lemma declared_as_external loc k : external_key loc = Some k → declared_as loc = Some k.
Proof.
  intros Hk. pose proof (category_keys_exclusive loc) as [Hf Ht].
  unfold declared_as. destruct (function_key loc).
  { destruct Hf as [_ Hnone]; [done|]. congruence. }
  destruct (type_key loc); [|done]. rewrite Ht in Hk by done. done.
Qed.

(** Every entry of the three dicts comes from a top-level declaration. *)
Lemma found_top_level root get k e :
  (get = functions ∨ get = types ∨ get = externals) →
  get (found root) !! k = Some e →
  top_level_entry root k e.
Proof.
  intros [-> | [-> | ->]] Hk.
  - apply (found_lookup_inv functions function_key record_functions eq_refl)
      in Hk as (loc & Hin & Hkey & ->).
    exists loc. split_and!; [by apply reached_in_document|by eapply reached_outside
                            |by apply declared_as_function|done].
  - apply (found_lookup_inv types type_key record_types eq_refl)
      in Hk as (loc & Hin & Hkey & ->).
    exists loc. split_and!; [by apply reached_in_document|by eapply reached_outside
                            |by apply declared_as_type|done].
  - apply (found_lookup_inv externals external_key record_externals eq_refl)
      in Hk as (loc & Hin & Hkey & ->).
    exists loc. split_and!; [by apply reached_in_document|by eapply reached_outside
                            |by apply declared_as_external|done].
Qed.

End nesting.

Section output_lists.
Implicit Types before after d : gmap pystr Entry.

Lemma named_body_from d (names : list pystr) p :
  p ∈ named_body d <$> names → p.1 ∈ dom d →
  ∃ e, d !! p.1 = Some e ∧ p.2 = body_text e.
Proof.
  intros (n & -> & _)%list_elem_of_fmap [e He]%elem_of_dom. exists e.
  cbn [named_body fst snd] in *. by rewrite (lookup_total_correct _ _ _ He).
Qed.

Lemma all_of_from d p : p ∈ all_of d → ∃ e, d !! p.1 = Some e ∧ p.2 = body_text e.
Proof.
  intros Hp. apply (named_body_from d (sorted (dom d))); [done|].
  apply list_elem_of_fmap in Hp as (n & -> & Hn). by apply elem_of_sorted in Hn.
Qed.

(** Each element of the three lists of [diff_components] repeats the name
    and the text of an entry of the dict it is taken from. *)
Lemma diff_components_from before after df :
  diff_components before after = Returns df →
  Forall (λ p, ∃ e, after !! p.1 = Some e ∧ p.2 = body_text e) (added df)
  ∧ Forall (λ p, ∃ e, before !! p.1 = Some e ∧ p.2 = body_text e) (deleted df)
  ∧ Forall (λ m, ∃ e1 e2, before !! modified_name m = Some e1
                          ∧ after !! modified_name m = Some e2
                          ∧ m.1.1.2 = body_text e1 ∧ m.1.2 = body_text e2)
           (modified df).
Proof.
  rewrite diff_components_returns. intros [= <-]. cbn [added deleted modified].
  split_and!; apply Forall_forall.
  - intros p Hp. apply (named_body_from _ _ _ Hp).
    apply list_elem_of_fmap in Hp as (n & -> & Hn).
    apply elem_of_sorted, elem_of_difference in Hn as [? _]. done.
  - intros p Hp. apply (named_body_from _ _ _ Hp).
    apply list_elem_of_fmap in Hp as (n & -> & Hn).
    apply elem_of_sorted, elem_of_difference in Hn as [? _]. done.
  - intros m (n & -> & Hn)%list_elem_of_fmap.
    apply list_elem_of_filter in Hn as [_ Hn].
    apply elem_of_sorted, elem_of_intersection in Hn as [[e1 H1]%elem_of_dom [e2 H2]%elem_of_dom].
    exists e1, e2. unfold modified_entry, modified_name. cbn [fst snd].
    by rewrite (lookup_total_correct _ _ _ H1), (lookup_total_correct _ _ _ H2).
Qed.

End output_lists.

(** C9: on trees the parser can produce, every node the loop handles lies
    outside every let, type and external declaration, named or not; so each
    entry of the three dicts, and each element of every list of the reports
    of the two-version compare and of single-version mode, is that of a
    declaration node with no declaration among its ancestors. *)
Theorem nested_declarations_not_extracted (changes : DetailedChanges)
    (module_name mode : pystr) (T other : Tree) :
  type (root_node T) ≠ "let_declaration" →
  type (root_node other) ≠ "let_declaration" →
  (∃ f, extract_components (root_node T) = Returns f
      ∧ extract_components (root_node T) =
          visit_all (reached [] (root_node T)) (mkComponents ∅ ∅ ∅)
      ∧ (∀ loc, loc ∈ reached [] (root_node T) → outside_declarations loc)
      ∧ (∀ k e, functions f !! k = Some e ∨ types f !! k = Some e
                ∨ externals f !! k = Some e →
                top_level_entry (root_node T) k e))
  ∧ (∃ r, compare_two_files changes T other = Returns r
      ∧ Forall (λ p, top_level_declaration (root_node other) p.1 p.2)
          (addedFunctions r ++ addedTypes r ++ addedExternals r)
      ∧ Forall (λ p, top_level_declaration (root_node T) p.1 p.2)
          (deletedFunctions r ++ deletedTypes r ++ deletedExternals r)
      ∧ Forall (λ m, top_level_declaration (root_node T) (modified_name m) m.1.1.2
                     ∧ top_level_declaration (root_node other) (modified_name m) m.1.2)
          (modifiedFunctions r ++ modifiedTypes r ++ modifiedExternals r))
  ∧ (∃ r, process_single_file (new_changes module_name) T mode = Returns r
      ∧ Forall (λ p, top_level_declaration (root_node T) p.1 p.2)
          (addedFunctions r ++ addedTypes r ++ addedExternals r
           ++ deletedFunctions r ++ deletedTypes r ++ deletedExternals r)
      ∧ modifiedFunctions r ++ modifiedTypes r ++ modifiedExternals r = []).
Proof.
  intros HT Hother.
  assert (∀ root get (l : list (pystr * pystr)),
            (get = functions ∨ get = types ∨ get = externals) →
            Forall (λ p, ∃ e, get (found root) !! p.1 = Some e ∧ p.2 = body_text e) l →
            Forall (λ p, top_level_declaration root p.1 p.2) l) as Hlist.
  { intros root get l Hget Hl. eapply Forall_impl; [exact Hl|]. intros p (e & He & ->).
    exists e. split; [|done]. by apply (found_top_level root get). }
  split_and!.
  - exists (found (root_node T)). split_and!.
    + by apply extract_components_returns.
    + apply extract_components_visits.
    + apply reached_outside.
    + intros k e [H|[H|H]];
        [ apply (found_top_level _ functions)
        | apply (found_top_level _ types)
        | apply (found_top_level _ externals) ]; auto.
  - destruct (compare_two_files_returns changes T other HT Hother)
      as (df & dt & de & Hf & Ht & He & ->).
    apply diff_components_from in Hf as (Hfa & Hfd & Hfm).
    apply diff_components_from in Ht as (Hta & Htd & Htm).
    apply diff_components_from in He as (Hea & Hed & Hem).
    eexists. split; [done|]. cbn.
    assert (∀ get (l : list Modified),
              (get = functions ∨ get = types ∨ get = externals) →
              Forall (λ m, ∃ e1 e2, get (found (root_node T)) !! modified_name m = Some e1
                            ∧ get (found (root_node other)) !! modified_name m = Some e2
                            ∧ m.1.1.2 = body_text e1 ∧ m.1.2 = body_text e2) l →
              Forall (λ m, top_level_declaration (root_node T) (modified_name m) m.1.1.2
                     ∧ top_level_declaration (root_node other) (modified_name m) m.1.2) l)
      as Hmod.
    { intros get l Hget Hl. eapply Forall_impl; [exact Hl|].
      intros m (e1 & e2 & H1 & H2 & -> & ->).
      split; [exists e1|exists e2]; (split; [|done]); by apply (found_top_level _ get). }
    rewrite !Forall_app. split_and!;
      first [ apply (Hlist _ functions); [auto|done]
            | apply (Hlist _ types); [auto|done]
            | apply (Hlist _ externals); [auto|done]
            | apply (Hmod functions); [auto|done]
            | apply (Hmod types); [auto|done]
            | apply (Hmod externals); [auto|done] ].
  - assert (∀ get, (get = functions ∨ get = types ∨ get = externals) →
              Forall (λ p, top_level_declaration (root_node T) p.1 p.2)
                (all_of (get (found (root_node T))))) as Hall.
    { intros get Hget. apply (Hlist _ get); [done|]. apply Forall_forall.
      intros p Hp. by apply all_of_from. }
    destruct (decide (mode = lit "deleted")) as [->|Hmode].
    + rewrite process_single_file_deleted by done. eexists. split; [done|]. cbn.
      split; [|done]. rewrite !Forall_app. split_and!; auto.
    + rewrite process_single_file_other by done. eexists. split; [done|]. cbn.
      split; [|done]. rewrite !Forall_app. split_and!; auto.
Qed.

Lemma nested_declarations_not_extracted_witness :
  (∃ f, extract_components (root_node sample_file) = Returns f
      ∧ extract_components (root_node sample_file) =
          visit_all (reached [] (root_node sample_file)) (mkComponents ∅ ∅ ∅)
      ∧ (∀ loc, loc ∈ reached [] (root_node sample_file) → outside_declarations loc)
      ∧ (∀ k e, functions f !! k = Some e ∨ types f !! k = Some e
                ∨ externals f !! k = Some e →
                top_level_entry (root_node sample_file) k e))
  ∧ (∃ r, compare_two_files (new_changes (lit "M")) sample_file empty_tree = Returns r
      ∧ Forall (λ p, top_level_declaration (root_node empty_tree) p.1 p.2)
          (addedFunctions r ++ addedTypes r ++ addedExternals r)
      ∧ Forall (λ p, top_level_declaration (root_node sample_file) p.1 p.2)
          (deletedFunctions r ++ deletedTypes r ++ deletedExternals r)
      ∧ Forall (λ m, top_level_declaration (root_node sample_file) (modified_name m) m.1.1.2
                     ∧ top_level_declaration (root_node empty_tree) (modified_name m) m.1.2)
          (modifiedFunctions r ++ modifiedTypes r ++ modifiedExternals r))
  ∧ (∃ r, process_single_file (new_changes (lit "M")) sample_file (lit "added") = Returns r
      ∧ Forall (λ p, top_level_declaration (root_node sample_file) p.1 p.2)
          (addedFunctions r ++ addedTypes r ++ addedExternals r
           ++ deletedFunctions r ++ deletedTypes r ++ deletedExternals r)
      ∧ modifiedFunctions r ++ modifiedTypes r ++ modifiedExternals r = []).
Proof.
  apply (nested_declarations_not_extracted (new_changes (lit "M")) (lit "M") (lit "added")
           sample_file empty_tree).
  - vm_compute. discriminate.
  - vm_compute. discriminate.
Defined.

Example let_in_let_names :
  dom (functions (found (root_node let_in_let))) = {[ lit "f" ]}.
Proof. vm_compute. reflexivity. Qed.

(** ** Declarations without a name *)

(** Where the guard [if name:] does its work: a type or external
    declaration without a name, and a let declaration without a name whose
    parent is the file, leave the dicts as they are. *)
Lemma nameless_declaration_is_skipped (m : Components) (parent node : Node)
    (above : list Node) :
  get_decl_name node (Some "let_binding") "value_identifier" = None →
  get_decl_name node (Some "type_binding") "type_identifier" = None →
  get_decl_name node None "value_identifier" = None →
  type parent = "source_file" →
  record m (parent :: above, node) = m.
Proof.
  intros Hlet Hty Hext Hparent.
  unfold record, function_key, type_key, external_key. cbn [fst snd].
  rewrite Hlet, Hty, Hext. rewrite (decide_False (P := type parent ≠ _)) by auto.
  by repeat case_decide.
Qed.

(** Where it does not: below any other parent, a let declaration without a
    name is stored, under the prefix followed by the word None. *)
Lemma nameless_nested_let_key (node parent grandparent first : Node)
    (above rest : list Node) (prefix : pystr) :
  type node = "let_declaration" →
  type parent ≠ "source_file" →
  get_decl_name node (Some "let_binding") "value_identifier" = None →
  children grandparent = first :: rest →
  decode_strict (text first) = Some prefix →
  function_key (parent :: grandparent :: above, node)
    = Some (prefix ++ lit " --> None").
Proof.
  intros Hlet Hparent Hname Hfirst Hprefix. unfold function_key. cbn [fst snd].
  rewrite decide_True by done. rewrite decide_True by done.
  unfold qualify. rewrite Hfirst, Hprefix, Hname. cbn [format_name].
  by destruct prefix.
Qed.

(** C2, at the input where the code departs from it: the let
    declaration has no name ([get_decl_name] returns [None]); at top level it
    is skipped, but inside a module the qualification step formats [None]
    into the name before [if name:] is tested, and the declaration is stored
    under the key [M --> None]. *)
Theorem nameless_nested_let_is_stored :
  get_decl_name let_pair (Some "let_binding") "value_identifier" = None
  ∧ extract_components (root_node (file_of [let_pair])) = Returns (mkComponents ∅ ∅ ∅)
  ∧ ∃ f, extract_components (root_node pair_in_module) = Returns f
         ∧ functions f !! lit "M --> None" = Some (entry_of let_pair).
Proof.
  split; [reflexivity|]. split; [vm_compute; reflexivity|].
  exists (found (root_node pair_in_module)).
  split; vm_compute; reflexivity.
Qed.

(** ** What a signature depends on *)

Section signatures.

Lemma Forall2_fmap_ast (l : list Node) :
  Forall (λ a, ∀ b, ast_to_tuple a = ast_to_tuple b ↔ same_named_content a b) l →
  ∀ l', ast_to_tuple <$> l = ast_to_tuple <$> l' ↔ Forall2 same_named_content l l'.
Proof.
  induction 1 as [|a l Ha _ IH]; intros [|b l']; simpl.
  - split; [constructor|done].
  - split; [done|inversion 1].
  - split; [done|inversion 1].
  - split.
    + intros [= Hab Hl]. constructor; [by apply Ha|by apply IH].
    + inversion 1; subst. f_equal; [by apply Ha|by apply IH].
Qed.

End signatures.

(** C3, as stated, fails: [()] and [( )] differ in layout only and every
    child of either is unnamed, yet their signatures differ, because a node
    without named children contributes its whole text. *)
Lemma unnamed_only_difference_changes_signature :
  differ_in_unnamed_only unit_tight unit_spaced
  ∧ ast_to_tuple unit_tight = SigText "unit" (lit "()")
  ∧ ast_to_tuple unit_spaced = SigText "unit" (lit "( )")
  ∧ signature_eqb (ast_to_tuple unit_tight) (ast_to_tuple unit_spaced) = false.
Proof.
  split; [|by vm_compute].
  constructor; [done|constructor|]. intros H. inversion H.
Qed.

(** C3, amended: two subtrees have equal signatures exactly when they have
    the same type, their named children (in order) have pairwise equal
    signatures, and, where a node has no named child, the decoded texts are
    equal.  So unnamed children and the node's own text never count at a
    node that has a named child, and they do count, through the text, at a
    node that has none. *)
Theorem signature_equality (a b : Node) :
  ast_to_tuple a = ast_to_tuple b ↔ same_named_content a b.
Proof.
  revert b. induction a as [a IH] using node_nested_ind. intros b.
  assert (Forall (λ a, ∀ b, ast_to_tuple a = ast_to_tuple b ↔ same_named_content a b)
            (named_children a)) as IHn.
  { rewrite Forall_forall in IH |- *. intros c [_ Hc]%list_elem_of_filter. by apply IH. }
  pose proof (Forall2_fmap_ast _ IHn (named_children b)) as Hsubs.
  rewrite (ast_to_tuple_eq a), (ast_to_tuple_eq b).
  destruct (named_children a) as [|ca la] eqn:Ha, (named_children b) as [|cb lb] eqn:Hb.
  - split.
    + intros [= Hty Htxt]. constructor; [done|rewrite Ha, Hb; constructor|done].
    + inversion 1 as [? ? Hty _ Htxt]; subst. by rewrite Hty, Htxt.
  - split; [done|]. inversion 1 as [? ? _ Hall _]; subst.
    rewrite Ha, Hb in Hall. inversion Hall.
  - split; [done|]. inversion 1 as [? ? _ Hall _]; subst.
    rewrite Ha, Hb in Hall. inversion Hall.
  - split.
    + intros [= Hty Hc Hl]. constructor; [done| |by rewrite Ha].
      rewrite Ha, Hb. apply Hsubs. simpl. by rewrite Hc, Hl.
    + inversion 1 as [? ? Hty Hall _]; subst. rewrite Ha, Hb in Hall.
      apply Hsubs in Hall. by rewrite Hty, Hall.
Qed.

Lemma signature_equality_witness :
  ast_to_tuple (pair_of "(1, 2)") = ast_to_tuple (pair_of "(1,2)").
Proof.
  apply (proj2 (signature_equality (pair_of "(1, 2)") (pair_of "(1,2)"))).
  constructor; [reflexivity| |intros H; inversion H].
  repeat constructor; try reflexivity; intros _; reflexivity.
Defined.

(** ** Decoding *)

Section decoding.

Lemma decode_ignore_items bs : decode_ignore bs = omap item_char (utf8_scan None bs).
Proof. reflexivity. Qed.

Lemma strict_then_ignore bs s : decode_strict bs = Some s → decode_ignore bs = s.
Proof.
  unfold decode_strict, decode_ignore. generalize (utf8_scan None bs). intros items.
  revert s. induction items as [|[cp|] items IH]; intros s; simpl.
  - by intros [= <-].
  - destruct (mapM _ items) as [s'|] eqn:Hs'; simpl; [|done].
    intros [= <-]. f_equal. by apply IH.
  - done.
Qed.

Lemma ignore_sublist_replace bs : decode_ignore bs `sublist_of` decode_replace bs.
Proof.
  unfold decode_ignore, decode_replace. generalize (utf8_scan None bs). intros items.
  induction items as [|[cp|] items IH]; simpl.
  - done.
  - by apply sublist_skip.
  - by apply sublist_cons.
Qed.

Lemma utf8_lead_below_ff b p : utf8_lead b = LeadMulti p → (hi p < 0xFF)%N.
Proof.
  unfold utf8_lead. repeat case_match; intros [= <-]; simpl; lia.
Qed.

Lemma scan_drops_ff st bs bs' :
  below_ff st →
  omap item_char (utf8_scan st (bs ++ xff :: bs')) =
    omap item_char (utf8_scan st bs) ++ omap item_char (utf8_scan None bs').
Proof.
  revert st. induction bs as [|b bs IH]; intros st Hst.
  - destruct st as [p|]; simpl in *.
    + replace ((lo p <=? 255)%N && (255 <=? hi p)%N) with false; [done|].
      symmetry. apply andb_false_iff. right. apply N.leb_gt. lia.
    + done.
  - cbn [app utf8_scan].
    assert (omap item_char
              match utf8_lead (Byte.to_N b) with
              | LeadAscii => Char (Byte.to_N b) :: utf8_scan None (bs ++ xff :: bs')
              | LeadMulti p => utf8_scan (Some p) (bs ++ xff :: bs')
              | LeadInvalid => Bad :: utf8_scan None (bs ++ xff :: bs')
              end =
            omap item_char
              match utf8_lead (Byte.to_N b) with
              | LeadAscii => Char (Byte.to_N b) :: utf8_scan None bs
              | LeadMulti p => utf8_scan (Some p) bs
              | LeadInvalid => Bad :: utf8_scan None bs
              end ++ omap item_char (utf8_scan None bs')) as Hfresh.
    { destruct (utf8_lead (Byte.to_N b)) as [|p|] eqn:Hlead; simpl.
      - by rewrite IH.
      - apply IH. simpl. by eapply utf8_lead_below_ff.
      - by rewrite IH. }
    destruct st as [p|]; [|done].
    destruct (_ && _); [|cbn [omap list_omap item_char]; exact Hfresh].
    destruct (need p) as [|[|k]]; cbn [omap list_omap item_char];
      rewrite IH; done || (simpl; lia).
Qed.

Lemma decode_ignore_drops_ff bs bs' :
  decode_ignore (bs ++ xff :: bs') = decode_ignore bs ++ decode_ignore bs'.
Proof. by apply scan_drops_ff. Qed.

Lemma utf8_lead_within b p :
  utf8_lead b = LeadMulti p → within_continuation (Some p).
Proof.
  unfold utf8_lead. repeat case_match; intros [= <-]; simpl; lia.
Qed.

Lemma scan_split st bs bs' :
  within_continuation st → starts_sequence bs' →
  omap item_char (utf8_scan st (bs ++ bs')) =
    omap item_char (utf8_scan st bs) ++ omap item_char (utf8_scan None bs').
Proof.
  intros Hst Hbs'. revert st Hst. induction bs as [|b bs IH]; intros st Hst.
  - destruct st as [p|]; [|done]. destruct bs' as [|b' bs']; [done|].
    cbn [app utf8_scan]. simpl in Hst, Hbs'. unfold continuation in Hbs'.
    replace ((lo p <=? Byte.to_N b')%N && (Byte.to_N b' <=? hi p)%N) with false; [done|].
    symmetry. apply andb_false_iff.
    destruct (N.leb_spec (lo p) (Byte.to_N b')); [right|by left].
    apply N.leb_gt. lia.
  - cbn [app utf8_scan].
    assert (omap item_char
              match utf8_lead (Byte.to_N b) with
              | LeadAscii => Char (Byte.to_N b) :: utf8_scan None (bs ++ bs')
              | LeadMulti p => utf8_scan (Some p) (bs ++ bs')
              | LeadInvalid => Bad :: utf8_scan None (bs ++ bs')
              end =
            omap item_char
              match utf8_lead (Byte.to_N b) with
              | LeadAscii => Char (Byte.to_N b) :: utf8_scan None bs
              | LeadMulti p => utf8_scan (Some p) bs
              | LeadInvalid => Bad :: utf8_scan None bs
              end ++ omap item_char (utf8_scan None bs')) as Hfresh.
    { destruct (utf8_lead (Byte.to_N b)) as [|p|] eqn:Hlead; simpl.
      - by rewrite IH.
      - apply IH. by eapply utf8_lead_within.
      - by rewrite IH. }
    destruct st as [p|]; [|done].
    destruct (_ && _); [|cbn [omap list_omap item_char]; exact Hfresh].
    destruct (need p) as [|[|k]]; cbn [omap list_omap item_char];
      rewrite IH; done || (simpl; lia).
Qed.

Lemma decode_ignore_split bs bs' :
  starts_sequence bs' →
  decode_ignore (bs ++ bs') = decode_ignore bs ++ decode_ignore bs'.
Proof. intros Hbs'. by apply scan_split. Qed.

Lemma decode_ignore_lone_byte b :
  (0x80 ≤ Byte.to_N b)%N → decode_ignore [b] = [].
Proof.
  intros Hb. unfold decode_ignore. cbn [utf8_scan].
  destruct (utf8_lead (Byte.to_N b)) as [|p|] eqn:Hlead; [|done..].
  unfold utf8_lead in Hlead. destruct (N.ltb_spec (Byte.to_N b) 0x80); [lia|].
  repeat case_match; done.
Qed.

Lemma utf8_kept_sublist st pre bs : utf8_kept st pre bs `sublist_of` pre ++ bs.
Proof.
  revert st pre. induction bs as [|b bs IH]; intros st pre.
  - apply sublist_nil_l.
  - cbn [utf8_kept].
    assert (match utf8_lead (Byte.to_N b) with
            | LeadAscii => b :: utf8_kept None [] bs
            | LeadMulti p => utf8_kept (Some p) [b] bs
            | LeadInvalid => utf8_kept None [] bs
            end `sublist_of` pre ++ b :: bs) as Hfresh.
    { apply sublist_inserts_l. destruct (utf8_lead (Byte.to_N b)) as [|p|].
      - apply sublist_skip, (IH None []).
      - apply (IH (Some p) [b]).
      - apply sublist_cons, (IH None []). }
    destruct st as [p|]; [|exact Hfresh].
    destruct (_ && _); [|exact Hfresh].
    destruct (need p) as [|[|k]].
    + apply sublist_app; [done|]. apply sublist_skip, (IH None []).
    + apply sublist_app; [done|]. apply sublist_skip, (IH None []).
    + replace (pre ++ b :: bs) with ((pre ++ [b]) ++ bs) by (by rewrite <- app_assoc).
      apply IH.
Qed.

Lemma utf8_kept_scan st pre bs :
  match st with Some p => pending_after pre p | None => True end →
  utf8_scan None (utf8_kept st pre bs) = Char <$> omap item_char (utf8_scan st bs).
Proof.
  revert st pre. induction bs as [|b bs IH]; intros st pre Hst.
  - by destruct st.
  - cbn [utf8_kept utf8_scan].
    assert (utf8_scan None
              match utf8_lead (Byte.to_N b) with
              | LeadAscii => b :: utf8_kept None [] bs
              | LeadMulti p => utf8_kept (Some p) [b] bs
              | LeadInvalid => utf8_kept None [] bs
              end =
            Char <$> omap item_char
              match utf8_lead (Byte.to_N b) with
              | LeadAscii => Char (Byte.to_N b) :: utf8_scan None bs
              | LeadMulti p => utf8_scan (Some p) bs
              | LeadInvalid => Bad :: utf8_scan None bs
              end) as Hfresh.
    { destruct (utf8_lead (Byte.to_N b)) as [|p|] eqn:Hlead.
      - cbn [utf8_scan]. rewrite Hlead. cbn [omap list_omap item_char fmap list_fmap].
        f_equal. by apply (IH None []).
      - apply IH. intros more. cbn [app utf8_scan]. by rewrite Hlead.
      - cbn [omap list_omap item_char]. by apply (IH None []). }
    destruct st as [p|]; [|exact Hfresh].
    destruct (_ && _) eqn:Hrange; [|cbn [omap list_omap item_char]; exact Hfresh].
    destruct (need p) as [|[|k]] eqn:Hneed.
    + rewrite (Hst (b :: utf8_kept None [] bs)). cbn [utf8_scan].
      rewrite Hrange, Hneed. cbn [omap list_omap item_char fmap list_fmap].
      f_equal. by apply (IH None []).
    + rewrite (Hst (b :: utf8_kept None [] bs)). cbn [utf8_scan].
      rewrite Hrange, Hneed. cbn [omap list_omap item_char fmap list_fmap].
      f_equal. by apply (IH None []).
    + apply IH. intros more. rewrite <- app_assoc. cbn [app].
      rewrite (Hst (b :: more)). cbn [utf8_scan]. by rewrite Hrange, Hneed.
Qed.

Lemma decode_strict_chars cs :
  mapM item_char (Char <$> cs) = Some cs.
Proof. by apply mapM_fmap_Some. Qed.

Lemma scan_after_strict st bs bs' s :
  mapM item_char (utf8_scan st bs) = Some s →
  utf8_scan st (bs ++ bs') = utf8_scan st bs ++ utf8_scan None bs'.
Proof.
  revert st s. induction bs as [|b bs IH]; intros st s.
  - destruct st; [discriminate|done].
  - cbn [app utf8_scan].
    assert (∀ s',
              mapM item_char
                match utf8_lead (Byte.to_N b) with
                | LeadAscii => Char (Byte.to_N b) :: utf8_scan None bs
                | LeadMulti p => utf8_scan (Some p) bs
                | LeadInvalid => Bad :: utf8_scan None bs
                end = Some s' →
              match utf8_lead (Byte.to_N b) with
              | LeadAscii => Char (Byte.to_N b) :: utf8_scan None (bs ++ bs')
              | LeadMulti p => utf8_scan (Some p) (bs ++ bs')
              | LeadInvalid => Bad :: utf8_scan None (bs ++ bs')
              end =
              match utf8_lead (Byte.to_N b) with
              | LeadAscii => Char (Byte.to_N b) :: utf8_scan None bs
              | LeadMulti p => utf8_scan (Some p) bs
              | LeadInvalid => Bad :: utf8_scan None bs
              end ++ utf8_scan None bs') as Hfresh.
    { intros s'. destruct (utf8_lead (Byte.to_N b)) as [|p|].
      - intros (c & cs & _ & Hcs & _)%mapM_Some_1%Forall2_cons_inv_l.
        apply mapM_Some_2 in Hcs. by rewrite (IH _ _ Hcs).
      - apply IH.
      - by intros (c & cs & [=] & _)%mapM_Some_1%Forall2_cons_inv_l. }
    destruct st as [p|]; [|apply Hfresh].
    destruct (_ && _).
    + destruct (need p) as [|[|k]].
      * intros (c & cs & _ & Hcs & _)%mapM_Some_1%Forall2_cons_inv_l.
        apply mapM_Some_2 in Hcs. by rewrite (IH _ _ Hcs).
      * intros (c & cs & _ & Hcs & _)%mapM_Some_1%Forall2_cons_inv_l.
        apply mapM_Some_2 in Hcs. by rewrite (IH _ _ Hcs).
      * apply IH.
    + by intros (c & cs & [=] & _)%mapM_Some_1%Forall2_cons_inv_l.
Qed.

(** What is well formed up to some byte is decoded in full, whatever
    follows. *)
Lemma decode_ignore_after_strict bs bs' s :
  decode_strict bs = Some s →
  decode_ignore (bs ++ bs') = s ++ decode_ignore bs'.
Proof.
  intros Hs. unfold decode_ignore. fold item_char.
  rewrite (scan_after_strict None bs bs' s Hs), omap_app. f_equal.
  by apply strict_then_ignore.
Qed.

(** The ignoring decoder gives the strict decoding of the bytes that are
    left when some are taken out: nothing is put in their place. *)
Lemma decode_ignore_kept bs :
  ∃ kept, kept `sublist_of` bs ∧ decode_strict kept = Some (decode_ignore bs).
Proof.
  exists (utf8_kept None [] bs). split; [apply (utf8_kept_sublist None [])|].
  unfold decode_strict. change (λ i, match i with Char cp => Some cp | Bad => None end)
    with item_char.
  rewrite utf8_kept_scan by done. apply decode_strict_chars.
Qed.

End decoding.

(** C7, as stated, fails on replacement: the ill-formed byte leaves no
    replacement character in the signature or in the captured text; it is
    left out.  (Strict decoding of the same bytes fails; replacing would give
    a, U+FFFD, b.) *)
Lemma invalid_byte_is_not_replaced :
  decode_strict (text broken_leaf) = None
  ∧ decode_replace (text broken_leaf) = [97; 0xFFFD; 98]%N
  ∧ ast_to_tuple broken_leaf = SigText "string" [97; 98]%N
  ∧ body_text (entry_of broken_leaf) = [97; 98]%N.
Proof. by vm_compute. Qed.

(** A stray continuation byte and a sequence cut short are left out just
    as the byte FF is; replacing would give a, U+FFFD, b both times. *)
Example stray_and_truncated_bytes_are_dropped :
  decode_ignore [x61; x80; x62] = [97; 98]%N
  ∧ decode_replace [x61; x80; x62] = [97; 0xFFFD; 98]%N
  ∧ decode_ignore [x61; xe2; x82; x62] = [97; 98]%N
  ∧ decode_replace [x61; xe2; x82; x62] = [97; 0xFFFD; 98]%N.
Proof. by vm_compute. Qed.

(** C7, amended: neither signature construction nor text capture nor
    extraction fails on bytes that are not UTF-8 -- extraction of a tree the
    parser can produce returns whatever the bytes of its nodes are, the one
    strict decode being inside the [try] -- and the text used is the bytes
    decoded with ill-formed sequences left out, not replaced.  For all
    bytes: the text is the strict decoding of the bytes that remain when
    some are taken out, so no code point stands for what is ill-formed; it
    is the strict decoding of the bytes themselves whenever that exists;
    decoding splits at every byte that is not a continuation byte, so an
    ill-formed stretch changes nothing of what is decoded before it and
    from the next such byte on; a byte that is not ASCII, alone, gives
    nothing, and a byte FF anywhere contributes nothing; and the text is
    the replacing decoding with code points removed. *)
Theorem invalid_bytes_are_dropped (root node : Node) (bs bs' : bytes) :
  type root ≠ "let_declaration" →
  (∃ f, extract_components root = Returns f)
  ∧ body_text (entry_of node) = decode_ignore (text node)
  ∧ (named_children node = [] →
     ast_to_tuple node = SigText (type node) (decode_ignore (text node)))
  ∧ (∀ s, decode_strict bs = Some s → decode_ignore bs = s)
  ∧ decode_ignore (bs ++ xff :: bs') = decode_ignore bs ++ decode_ignore bs'
  ∧ decode_ignore bs `sublist_of` decode_replace bs
  ∧ (∃ kept, kept `sublist_of` bs ∧ decode_strict kept = Some (decode_ignore bs))
  ∧ (∃ kept, kept `sublist_of` text node
       ∧ decode_strict kept = Some (body_text (entry_of node)))
  ∧ (named_children node = [] →
     ∃ kept, kept `sublist_of` text node
       ∧ (λ s, SigText (type node) s) <$> decode_strict kept = Some (ast_to_tuple node))
  ∧ (starts_sequence bs' →
     decode_ignore (bs ++ bs') = decode_ignore bs ++ decode_ignore bs')
  ∧ (∀ s, decode_strict bs = Some s →
     decode_ignore (bs ++ bs') = s ++ decode_ignore bs')
  ∧ (∀ b, (0x80 ≤ Byte.to_N b)%N → decode_ignore [b] = []).
Proof.
  intros Hroot. split_and!.
  - eexists. by apply extract_components_returns.
  - done.
  - intros Hnone. by rewrite ast_to_tuple_eq, Hnone.
  - apply strict_then_ignore.
  - apply decode_ignore_drops_ff.
  - apply ignore_sublist_replace.
  - apply decode_ignore_kept.
  - apply decode_ignore_kept.
  - intros Hnone. destruct (decode_ignore_kept (text node)) as (kept & Hsub & Hkept).
    exists kept. split; [done|]. by rewrite Hkept, ast_to_tuple_eq, Hnone.
  - apply decode_ignore_split.
  - intros s. apply decode_ignore_after_strict.
  - apply decode_ignore_lone_byte.
Qed.

Lemma invalid_bytes_are_dropped_witness :
  (∃ f, extract_components (root_node (file_of [broken_leaf])) = Returns f)
  ∧ body_text (entry_of broken_leaf) = decode_ignore (text broken_leaf)
  ∧ (named_children broken_leaf = [] →
     ast_to_tuple broken_leaf = SigText (type broken_leaf) (decode_ignore (text broken_leaf)))
  ∧ (∀ s, decode_strict [x61; x80] = Some s → decode_ignore [x61; x80] = s)
  ∧ decode_ignore ([x61; x80] ++ xff :: [x62]) =
      decode_ignore [x61; x80] ++ decode_ignore [x62]
  ∧ decode_ignore [x61; x80] `sublist_of` decode_replace [x61; x80]
  ∧ (∃ kept, kept `sublist_of` [x61; x80]
       ∧ decode_strict kept = Some (decode_ignore [x61; x80]))
  ∧ (∃ kept, kept `sublist_of` text broken_leaf
       ∧ decode_strict kept = Some (body_text (entry_of broken_leaf)))
  ∧ (named_children broken_leaf = [] →
     ∃ kept, kept `sublist_of` text broken_leaf
       ∧ (λ s, SigText (type broken_leaf) s) <$> decode_strict kept
           = Some (ast_to_tuple broken_leaf))
  ∧ (starts_sequence [x62] →
     decode_ignore ([x61; x80] ++ [x62]) = decode_ignore [x61; x80] ++ decode_ignore [x62])
  ∧ (∀ s, decode_strict [x61; x80] = Some s →
     decode_ignore ([x61; x80] ++ [x62]) = s ++ decode_ignore [x62])
  ∧ (∀ b, (0x80 ≤ Byte.to_N b)%N → decode_ignore [b] = []).
Proof.
  apply (invalid_bytes_are_dropped (root_node (file_of [broken_leaf])) broken_leaf
           [x61; x80] [x62]).
  vm_compute. discriminate.
Defined.


(** ** How nested lets are named *)

Section stored_under.
Variable get : Components → gmap pystr Entry.
Variable key : Located → option pystr.
Hypothesis record_get : ∀ m loc k,
  get (record m loc) !! k =
    if decide (key loc = Some k) then Some (entry_of loc.2) else get m !! k.
Hypothesis get_empty : get (mkComponents ∅ ∅ ∅) = ∅.

(** A reached node with a key leaves that key in the dict, with its own
    entry unless a later reached node has the same key. *)
Lemma found_at root earlier loc later k :
  reached [] root = earlier ++ loc :: later →
  key loc = Some k →
  k ∈ dom (get (found root))
  ∧ (Forall (λ l, key l ≠ Some k) later →
     get (found root) !! k = Some (entry_of loc.2)).
Proof.
  intros Hsplit Hkey.
  pose proof (found_lookup get key record_get get_empty root k) as Hlook.
  rewrite Hsplit, filter_app, filter_cons_True in Hlook by done.
  rewrite last_app, last_cons in Hlook. split.
  - apply elem_of_dom. rewrite Hlook. by destruct (last (filter _ later)).
  - intros Hlater. rewrite Hlook. by rewrite filter_none.
Qed.
End stored_under.

Lemma function_key_qualified (node parent grandparent first : Node)
    (above rest : list Node) (prefix name : pystr) :
  type node = "let_declaration" →
  type parent ≠ "source_file" →
  get_decl_name node (Some "let_binding") "value_identifier" = Some name →
  children grandparent = first :: rest →
  decode_strict (text first) = Some prefix →
  function_key (parent :: grandparent :: above, node)
    = Some (prefix ++ lit " --> " ++ name).
Proof.
  intros Hlet Hparent Hname Hfirst Hprefix. unfold function_key. cbn [fst snd].
  rewrite decide_True by done. rewrite decide_True by done.
  unfold qualify. rewrite Hfirst, Hprefix, Hname. cbn [format_name].
  by destruct prefix.
Qed.

Lemma function_key_fallback (node parent : Node) (above : list Node) :
  type node = "let_declaration" →
  above = []
  ∨ (∃ grandparent rest first more,
       above = grandparent :: rest ∧ children grandparent = first :: more
       ∧ decode_strict (text first) = None) →
  function_key (parent :: above, node)
    = usable (get_decl_name node (Some "let_binding") "value_identifier").
Proof.
  intros Hlet Hcase. unfold function_key. cbn [fst snd]. rewrite decide_True by done.
  case_decide as Hparent; [|done].
  destruct Hcase as [->|(gp & rest & first & more & -> & Hfirst & Hbad)].
  - done.
  - unfold qualify. by rewrite Hfirst, Hbad.
Qed.

(** A let declaration that has a parent and no key leaves the dicts as
    they are. *)
Lemma keyless_let_is_skipped (root node parent : Node) (above : list Node)
    (earlier later : list Located) :
  reached [] root = earlier ++ (parent :: above, node) :: later →
  type node = "let_declaration" →
  function_key (parent :: above, node) = None →
  extract_components root = visit_all (earlier ++ later) (mkComponents ∅ ∅ ∅).
Proof.
  intros Hsplit Hlet Hkey. rewrite extract_components_visits, Hsplit, !visit_all_app.
  destruct (visit_all earlier _) as [m| |]; [|done..]. cbn [and_then visit_all].
  rewrite decide_False by (by intros [_ [=]]). f_equal.
  unfold record. rewrite Hkey. unfold type_key, external_key. cbn [snd].
  by rewrite !decide_True.
Qed.

(** X2: extraction stores a named let declaration it reaches whose parent
    is not the file under the text of the first child of its grandparent,
    an arrow, and its own name, whenever that text is UTF-8: this qualified
    name is a key of [functions], with the entry of this declaration unless
    a declaration reached later has the same key.  (The declarations
    reached are those outside every other declaration.) *)
Theorem nested_let_is_qualified (root node parent grandparent first : Node)
    (above rest : list Node) (earlier later : list Located) (prefix name : pystr) :
  type root ≠ "let_declaration" →
  reached [] root = earlier ++ (parent :: grandparent :: above, node) :: later →
  type node = "let_declaration" →
  type parent ≠ "source_file" →
  get_decl_name node (Some "let_binding") "value_identifier" = Some name →
  children grandparent = first :: rest →
  decode_strict (text first) = Some prefix →
  ∃ f, extract_components root = Returns f
    ∧ (prefix ++ lit " --> " ++ name) ∈ dom (functions f)
    ∧ (Forall (λ l, function_key l ≠ Some (prefix ++ lit " --> " ++ name)) later →
       functions f !! (prefix ++ lit " --> " ++ name) = Some (entry_of node)).
Proof.
  intros Hroot Hsplit Hlet Hparent Hname Hfirst Hprefix. exists (found root).
  split; [by apply extract_components_returns|].
  apply (found_at functions function_key record_functions eq_refl root earlier
           (parent :: grandparent :: above, node) later); [done|].
  by eapply function_key_qualified.
Qed.

Lemma nested_let_is_qualified_witness :
  ∃ f, extract_components (root_node sample_file) = Returns f
    ∧ (lit "M" ++ lit " --> " ++ lit "add") ∈ dom (functions f)
    ∧ (Forall (λ l, function_key l ≠ Some (lit "M" ++ lit " --> " ++ lit "add"))
         (drop 9 (reached [] (root_node sample_file))) →
       functions f !! (lit "M" ++ lit " --> " ++ lit "add")
         = Some (entry_of (let_decl "add" "2"))).
Proof.
  eapply (nested_let_is_qualified (root_node sample_file) (let_decl "add" "2")
            _ _ _ _ _
            (take 8 (reached [] (root_node sample_file)))
            (drop 9 (reached [] (root_node sample_file)))
            (lit "M") (lit "add")).
  - vm_compute. discriminate.
  - cbv. reflexivity.
  - reflexivity.
  - cbv. discriminate.
  - reflexivity.
  - cbv. reflexivity.
  - cbv. reflexivity.
Defined.

(** In [sample_file] no later declaration is stored as M --> add, so the
    entry under that key is the one of the let of the module. *)
Example sample_file_module_add :
  Forall (λ l, function_key l ≠ Some (lit "M --> add"))
    (drop 9 (reached [] (root_node sample_file)))
  ∧ body_text <$> sample_before !! lit "M --> add" = Some (lit "let add = 2").
Proof. split; [|by vm_compute]. repeat constructor; by vm_compute. Qed.

(** X3: when the qualification of a let declaration that extraction
    reaches is tried and fails -- the parent is not the file, and there is
    no grandparent or the text of the grandparent's first child is not
    UTF-8 -- the failure is swallowed and the declaration is stored under
    its unqualified name: that name is a key of [functions], with the entry
    of this declaration unless a declaration reached later has the same
    key; and a declaration without a name, or with an empty one, is skipped:
    the dicts are those of the other nodes reached. *)
Theorem unqualified_name_is_the_fallback (root node parent : Node)
    (above : list Node) (earlier later : list Located) :
  type root ≠ "let_declaration" →
  reached [] root = earlier ++ (parent :: above, node) :: later →
  type node = "let_declaration" →
  type parent ≠ "source_file" →
  above = []
  ∨ (∃ grandparent rest first more,
       above = grandparent :: rest ∧ children grandparent = first :: more
       ∧ decode_strict (text first) = None) →
  ∃ f, extract_components root = Returns f
    ∧ match get_decl_name node (Some "let_binding") "value_identifier" with
      | Some (c :: name) =>
          (c :: name) ∈ dom (functions f)
          ∧ (Forall (λ l, function_key l ≠ Some (c :: name)) later →
             functions f !! (c :: name) = Some (entry_of node))
      | _ =>
          extract_components root = visit_all (earlier ++ later) (mkComponents ∅ ∅ ∅)
      end.
Proof.
  intros Hroot Hsplit Hlet Hparent Hcase. exists (found root).
  split; [by apply extract_components_returns|].
  pose proof (function_key_fallback node parent above Hlet Hcase) as Hkey.
  destruct (get_decl_name node _ _) as [[|c name]|]; cbn [usable] in Hkey.
  - by eapply keyless_let_is_skipped.
  - by apply (found_at functions function_key record_functions eq_refl root earlier
                (parent :: above, node) later).
  - by eapply keyless_let_is_skipped.
Qed.

Lemma unqualified_name_is_the_fallback_witness :
  ∃ f, extract_components (root_node let_after_broken) = Returns f
    ∧ lit "add" ∈ dom (functions f)
    ∧ (Forall (λ l, function_key l ≠ Some (lit "add")) [] →
       functions f !! lit "add" = Some (entry_of (let_decl "add" "1"))).
Proof.
  eapply (unqualified_name_is_the_fallback (root_node let_after_broken)
            (let_decl "add" "1") _ _
            (take 3 (reached [] (root_node let_after_broken))) []).
  - vm_compute. discriminate.
  - cbv. reflexivity.
  - reflexivity.
  - cbv. discriminate.
  - right. do 4 eexists. split; [reflexivity|]. split; cbv; reflexivity.
Defined.

(** In [let_after_broken] the strict decode inside the [try] fails, and the
    let is stored as add. *)
Example let_after_broken_functions :
  decode_strict (text broken_leaf) = None
  ∧ ∃ f, extract_components (root_node let_after_broken) = Returns f
      ∧ body_text <$> functions f !! lit "add" = Some (lit "let add = 1")
      ∧ sorted (dom (functions f)) = [lit "add"].
Proof.
  split; [by vm_compute|]. eexists. split; [by vm_compute|].
  split; by vm_compute.
Qed.

(** * Further properties of the code *)

(** ** get_decl_name *)

Section names.

Lemma first_named_of_type_eq name_type cs :
  first_named_of_type name_type cs =
    decode_ignore ∘ text <$> head (filter (names_it name_type) cs).
Proof.
  induction cs as [|g cs IH]; [done|]. cbn [first_named_of_type].
  rewrite filter_cons. destruct (decide (names_it name_type g)) as [[Hn Hty]|Hno].
  - apply Is_true_true in Hn. by rewrite Hn, bool_decide_eq_true_2.
  - rewrite <- IH. destruct (is_named g) eqn:Hn; [|done].
    rewrite bool_decide_eq_false_2; [done|]. intros Hty. apply Hno. split; [|done].
    by apply Is_true_true.
Qed.

End names.

(** X4: with a binding type given, [get_decl_name] returns the text of the
    first naming grandchild found under the children of that type, children
    taken in order: a child of the binding type that holds no such
    grandchild is passed over for the next one, and the child itself need
    not be a named node. *)
Theorem get_decl_name_through_binding (node : Node) (node_type name_type : string) :
  node_type ≠ "" →
  get_decl_name node (Some node_type) name_type =
    decode_ignore ∘ text <$>
      head (filter (λ c, type c = node_type) (children node)
              ≫= λ c, filter (names_it name_type) (children c)).
Proof.
  intros Hty. unfold get_decl_name.
  induction (children node) as [|child cs IH]; [done|].
  cbn [get_decl_name_from truthy_type]. rewrite filter_cons.
  rewrite (bool_decide_eq_false_2 (node_type = "")) by done. cbn [negb andb].
  case_bool_decide as Hchild.
  - injection Hchild as Hchild. rewrite decide_True by done.
    rewrite bind_cons, first_named_of_type_eq.
    destruct (filter (names_it name_type) (children child)) as [|g gs]; [|done].
    exact IH.
  - rewrite decide_False by congruence. exact IH.
Qed.

Lemma get_decl_name_through_binding_witness :
  get_decl_name let_pair (Some "let_binding") "value_identifier" =
    decode_ignore ∘ text <$>
      head (filter (λ c, type c = "let_binding") (children let_pair)
              ≫= λ c, filter (names_it "value_identifier") (children c)).
Proof.
  apply (get_decl_name_through_binding let_pair "let_binding" "value_identifier").
  discriminate.
Defined.

(** X5: without a binding type ([None], or the empty string, which is as
    false), [get_decl_name] returns the text of the first child that is a
    named node of the name type, and [None] when there is none. *)
Theorem get_decl_name_direct (node : Node) (name_type : string) :
  get_decl_name node None name_type =
    decode_ignore ∘ text <$> head (filter (names_it name_type) (children node))
  ∧ get_decl_name node (Some "") name_type = get_decl_name node None name_type.
Proof.
  unfold get_decl_name. induction (children node) as [|child cs [IH1 IH2]]; [done|].
  cbn [get_decl_name_from truthy_type]. rewrite filter_cons.
  rewrite (bool_decide_eq_true_2 ("" = "")) by done. cbn [negb andb].
  destruct (decide (names_it name_type child)) as [[Hn Hty]|Hno].
  - apply Is_true_true in Hn. by rewrite Hn, bool_decide_eq_true_2.
  - destruct (is_named child) eqn:Hn; [|done].
    rewrite bool_decide_eq_false_2; [done|]. intros Hty. apply Hno. split; [|done].
    by apply Is_true_true.
Qed.

(** ** diff_components *)

Section diff_contents.
Implicit Types before after d : gmap pystr Entry.

Lemma elem_of_named_body d (names : list pystr) n t :
  (∀ k, k ∈ names → k ∈ dom d) →
  (n, t) ∈ named_body d <$> names ↔
  n ∈ names ∧ ∃ e, d !! n = Some e ∧ t = body_text e.
Proof.
  intros Hdom. rewrite list_elem_of_fmap. unfold named_body. split.
  - intros (k & Heq & Hk). injection Heq as -> ->. split; [done|].
    pose proof (Hdom _ Hk) as [e He]%elem_of_dom. exists e.
    by rewrite (lookup_total_correct _ _ _ He).
  - intros (Hn & e & He & ->). exists n. split; [|done].
    by rewrite (lookup_total_correct _ _ _ He).
Qed.

Lemma modified_entry_eq before after n e1 e2 :
  before !! n = Some e1 → after !! n = Some e2 →
  modified_entry before after n =
    (n, body_text e1, body_text e2, mkSpans e1.1.2 e1.2 e2.1.2 e2.2)
  ∧ (differs before after n ↔ ast_repr e1 ≠ ast_repr e2).
Proof.
  intros H1 H2. unfold modified_entry, differs, Entry in *.
  rewrite !lookup_total_alt, H1, H2. simpl. split; [reflexivity|tauto].
Qed.

Lemma differs_sym before after n : differs before after n ↔ differs after before n.
Proof. unfold differs. split; intros H Heq; by apply H. Qed.

Lemma sorted_nil_inv (s : gset pystr) : sorted s = [] → s = ∅.
Proof.
  intros Hs. apply set_eq. intros n. rewrite <- elem_of_sorted, Hs.
  rewrite elem_of_nil. set_solver.
Qed.

End diff_contents.

(** X8: what each list of [diff_components] holds.  A pair is in [added]
    exactly when its name is a key of the new dict only and its text is that
    entry's; in [deleted] exactly when its name is a key of the old dict
    only and its text is that entry's; and a tuple is in [modified] exactly
    when its name is a key of both, the two signatures differ, and it
    carries the two texts and the four positions of the two entries. *)
Theorem diff_components_contents (before after : gmap pystr Entry) :
  ∃ d, diff_components before after = Returns d
    ∧ (∀ n t, (n, t) ∈ added d ↔
         before !! n = None ∧ ∃ e, after !! n = Some e ∧ t = body_text e)
    ∧ (∀ n t, (n, t) ∈ deleted d ↔
         after !! n = None ∧ ∃ e, before !! n = Some e ∧ t = body_text e)
    ∧ (∀ n old new spans, (n, old, new, spans) ∈ modified d ↔
         ∃ e1 e2, before !! n = Some e1 ∧ after !! n = Some e2
                  ∧ ast_repr e1 ≠ ast_repr e2
                  ∧ old = body_text e1 ∧ new = body_text e2
                  ∧ spans = mkSpans e1.1.2 e1.2 e2.1.2 e2.2).
Proof.
  eexists. split; [apply diff_components_returns|]. cbn [added deleted modified].
  split_and!.
  - intros n t. rewrite elem_of_named_body.
    + rewrite elem_of_sorted, elem_of_difference, not_elem_of_dom, elem_of_dom.
      split; [intros [[_ ?] ?]; done|]. intros [Hb (e & He & ->)]. eauto.
    + intros k. rewrite elem_of_sorted, elem_of_difference. tauto.
  - intros n t. rewrite elem_of_named_body.
    + rewrite elem_of_sorted, elem_of_difference, not_elem_of_dom, elem_of_dom.
      split; [intros [[_ ?] ?]; done|]. intros [Hb (e & He & ->)]. eauto.
    + intros k. rewrite elem_of_sorted, elem_of_difference. tauto.
  - intros n old new spans. rewrite list_elem_of_fmap. split.
    + intros (k & Heq & Hk). apply list_elem_of_filter in Hk as [Hdiff Hk].
      apply elem_of_sorted, elem_of_intersection in Hk
        as [[e1 H1]%elem_of_dom [e2 H2]%elem_of_dom].
      destruct (modified_entry_eq _ _ _ _ _ H1 H2) as [Hentry Hd].
      rewrite Hentry in Heq. injection Heq as -> -> -> ->.
      exists e1, e2. split_and!; try done. by apply Hd.
    + intros (e1 & e2 & H1 & H2 & Hne & -> & -> & ->). exists n.
      destruct (modified_entry_eq _ _ _ _ _ H1 H2) as [Hentry Hd].
      split; [done|].
      rewrite list_elem_of_filter, elem_of_sorted, elem_of_intersection, !elem_of_dom.
      split; [by apply Hd|]. by rewrite H1, H2.
Qed.

(** X9: exchanging the two dicts exchanges the added and the deleted list
    and turns each modified entry around (old and new text, old and new
    positions); the order of the entries stays. *)
Theorem diff_components_swap (before after : gmap pystr Entry) :
  ∃ d d', diff_components before after = Returns d
    ∧ diff_components after before = Returns d'
    ∧ added d' = deleted d
    ∧ deleted d' = added d
    ∧ modified d' = swap_modified <$> modified d.
Proof.
  do 2 eexists. split; [apply diff_components_returns|].
  split; [apply diff_components_returns|]. cbn [added deleted modified].
  split_and!; [done..|].
  rewrite <- list_fmap_compose, (intersection_comm_L (dom after)).
  rewrite (list_filter_iff (differs after before) (differs before after))
    by (intros n; apply differs_sym).
  by apply list_fmap_ext.
Qed.

(** Equal keys and equal signatures leave nothing to report. *)
Lemma same_signatures_no_diff (before after : gmap pystr Entry) :
  dom before = dom after →
  (∀ n, ast_repr <$> before !! n = ast_repr <$> after !! n) →
  diff_components before after = Returns (mkDiff [] [] []).
Proof.
  intros Hdom Hsig. rewrite diff_components_returns.
  rewrite Hdom, difference_diag_L, sorted_empty.
  rewrite filter_none; [done|]. apply Forall_forall. intros n Hn Hdiff.
  apply elem_of_sorted, elem_of_intersection in Hn as [[e2 H2]%elem_of_dom _].
  assert (n ∈ dom before) as [e1 H1]%elem_of_dom
    by (rewrite Hdom; by apply elem_of_dom).
  unfold differs in Hdiff.
  rewrite (lookup_total_correct _ _ _ H1), (lookup_total_correct _ _ _ H2) in Hdiff.
  specialize (Hsig n). rewrite H1, H2 in Hsig. simpl in Hsig. congruence.
Qed.

(** X10: the three lists are all empty exactly when the two dicts have the
    same keys and, key by key, equal signatures; texts and positions play
    no part. *)
Theorem diff_components_empty_iff (before after : gmap pystr Entry) :
  diff_components before after = Returns (mkDiff [] [] [])
  ↔ dom before = dom after
    ∧ ∀ n, ast_repr <$> before !! n = ast_repr <$> after !! n.
Proof.
  rewrite diff_components_returns. split.
  - intros [= Ha Hd Hm].
    apply fmap_nil_inv, sorted_nil_inv in Ha.
    apply fmap_nil_inv, sorted_nil_inv in Hd.
    apply fmap_nil_inv in Hm.
    assert (dom before = dom after) as Hdom.
    { apply set_eq. intros n. split; intros Hn.
      - destruct (decide (n ∈ dom after)) as [|Hno]; [done|].
        assert (n ∈ dom before ∖ dom after) as Hin by (by apply elem_of_difference).
        rewrite Hd in Hin. by apply not_elem_of_empty in Hin.
      - destruct (decide (n ∈ dom before)) as [|Hno]; [done|].
        assert (n ∈ dom after ∖ dom before) as Hin by (by apply elem_of_difference).
        rewrite Ha in Hin. by apply not_elem_of_empty in Hin. }
    split; [done|]. intros n.
    destruct (before !! n) as [e1|] eqn:H1.
    + assert (n ∈ dom after) as [e2 H2]%elem_of_dom
        by (rewrite <- Hdom; by apply elem_of_dom).
      rewrite H2. simpl. f_equal.
      destruct (decide (ast_repr e1 = ast_repr e2)) as [|Hne]; [done|].
      assert (n ∈ filter (differs before after) (sorted (dom before ∩ dom after))) as Hin.
      { rewrite list_elem_of_filter, elem_of_sorted, elem_of_intersection, !elem_of_dom.
        unfold differs.
        rewrite (lookup_total_correct _ _ _ H1), (lookup_total_correct _ _ _ H2).
        eauto. }
      pose proof (eq_ind _ (λ l : list pystr, n ∈ l) Hin _ Hm) as Hnil.
      by apply elem_of_nil in Hnil.
    + apply not_elem_of_dom in H1. rewrite Hdom in H1.
      apply not_elem_of_dom in H1. by rewrite H1.
  - intros [Hdom Hsig]. revert Hdom Hsig. rewrite <- diff_components_returns.
    apply same_signatures_no_diff.
Qed.

(** ** extract_components: keys and entries *)

Section keys.
Variable get : Components → gmap pystr Entry.
Variable key : Located → option pystr.
Hypothesis record_get : ∀ m loc k,
  get (record m loc) !! k =
    if decide (key loc = Some k) then Some (entry_of loc.2) else get m !! k.
Hypothesis get_empty : get (mkComponents ∅ ∅ ∅) = ∅.

Lemma found_dom root k :
  k ∈ dom (get (found root)) ↔ ∃ loc, loc ∈ reached [] root ∧ key loc = Some k.
Proof.
  rewrite elem_of_dom, (found_lookup get key record_get get_empty). split.
  - intros [e He]. destruct (last _) as [loc|] eqn:Hlast; [|done].
    apply last_Some_elem_of, list_elem_of_filter in Hlast as [? ?]. by exists loc.
  - intros (loc & Hin & Hkey).
    destruct (last (filter (λ loc, key loc = Some k) (reached [] root))) as [l|] eqn:Hlast.
    + by eexists.
    + apply last_None in Hlast.
      assert (loc ∈ filter (λ loc, key loc = Some k) (reached [] root)) as Hf
        by (by apply list_elem_of_filter).
      rewrite Hlast in Hf. by apply elem_of_nil in Hf.
Qed.
End keys.

Section entry_shape.

Lemma usable_Some name k : usable name = Some k → name = Some k ∧ k ≠ [].
Proof. destruct name as [[|c key]|]; [done| |done]. by intros [= <-]. Qed.

Lemma signature_type_ast node : signature_type (ast_to_tuple node) = type node.
Proof. rewrite ast_to_tuple_eq. by destruct (named_children node). Qed.

Lemma function_key_Some loc k :
  function_key loc = Some k → type loc.2 = "let_declaration" ∧ k ≠ [].
Proof.
  unfold function_key. case_decide; [|done]. destruct loc.1; [done|].
  by intros [_ ?]%usable_Some.
Qed.

Lemma type_key_Some loc k :
  type_key loc = Some k → type loc.2 = "type_declaration" ∧ k ≠ [].
Proof.
  unfold type_key. repeat case_decide; try done. by intros [_ ?]%usable_Some.
Qed.

Lemma external_key_Some loc k :
  external_key loc = Some k → type loc.2 = "external_declaration" ∧ k ≠ [].
Proof.
  unfold external_key. repeat case_decide; try done. by intros [_ ?]%usable_Some.
Qed.

End entry_shape.

(** X6: the keys of each dict are exactly the names the visited
    declarations of its kind resolve to: a let, type or external declaration
    the loop reaches with a non-empty name always has its key in the dict
    (with the entry of the last declaration of that name), and nothing else
    is a key. *)
Theorem extracted_keys (root : Node) :
  type root ≠ "let_declaration" →
  ∃ f, extract_components root = Returns f
    ∧ ∀ k,
        (k ∈ dom (functions f) ↔
           ∃ loc, loc ∈ reached [] root ∧ function_key loc = Some k)
        ∧ (k ∈ dom (types f) ↔
           ∃ loc, loc ∈ reached [] root ∧ type_key loc = Some k)
        ∧ (k ∈ dom (externals f) ↔
           ∃ loc, loc ∈ reached [] root ∧ external_key loc = Some k).
Proof.
  intros Hroot. exists (found root). split; [by apply extract_components_returns|].
  intros k. split_and!.
  - apply (found_dom functions function_key record_functions eq_refl).
  - apply (found_dom types type_key record_types eq_refl).
  - apply (found_dom externals external_key record_externals eq_refl).
Qed.

Lemma extracted_keys_witness :
  ∃ f, extract_components (root_node sample_file) = Returns f
    ∧ ∀ k,
        (k ∈ dom (functions f) ↔
           ∃ loc, loc ∈ reached [] (root_node sample_file) ∧ function_key loc = Some k)
        ∧ (k ∈ dom (types f) ↔
           ∃ loc, loc ∈ reached [] (root_node sample_file) ∧ type_key loc = Some k)
        ∧ (k ∈ dom (externals f) ↔
           ∃ loc, loc ∈ reached [] (root_node sample_file) ∧ external_key loc = Some k).
Proof.
  apply (extracted_keys (root_node sample_file)). vm_compute. discriminate.
Defined.

(** X7: no dict has the empty string as a key, and the signature of every
    entry starts with the node type of its dict -- let_declaration in
    [functions], type_declaration in [types], external_declaration in
    [externals] -- so entries of different dicts never have equal
    signatures. *)
Theorem entries_are_tagged (root : Node) :
  type root ≠ "let_declaration" →
  ∃ f, extract_components root = Returns f
    ∧ ∀ k e,
        (functions f !! k = Some e →
           k ≠ [] ∧ signature_type (ast_repr e) = "let_declaration")
        ∧ (types f !! k = Some e →
           k ≠ [] ∧ signature_type (ast_repr e) = "type_declaration")
        ∧ (externals f !! k = Some e →
           k ≠ [] ∧ signature_type (ast_repr e) = "external_declaration").
Proof.
  intros Hroot. exists (found root). split; [by apply extract_components_returns|].
  intros k e. split_and!; intros He.
  - apply (found_lookup_inv functions function_key record_functions eq_refl)
      in He as (loc & _ & [Hty Hk]%function_key_Some & ->).
    split; [done|]. unfold ast_repr, entry_of. cbn [fst]. by rewrite signature_type_ast.
  - apply (found_lookup_inv types type_key record_types eq_refl)
      in He as (loc & _ & [Hty Hk]%type_key_Some & ->).
    split; [done|]. unfold ast_repr, entry_of. cbn [fst]. by rewrite signature_type_ast.
  - apply (found_lookup_inv externals external_key record_externals eq_refl)
      in He as (loc & _ & [Hty Hk]%external_key_Some & ->).
    split; [done|]. unfold ast_repr, entry_of. cbn [fst]. by rewrite signature_type_ast.
Qed.

Lemma entries_are_tagged_witness :
  ∃ f, extract_components (root_node sample_file) = Returns f
    ∧ ∀ k e,
        (functions f !! k = Some e →
           k ≠ [] ∧ signature_type (ast_repr e) = "let_declaration")
        ∧ (types f !! k = Some e →
           k ≠ [] ∧ signature_type (ast_repr e) = "type_declaration")
        ∧ (externals f !! k = Some e →
           k ≠ [] ∧ signature_type (ast_repr e) = "external_declaration").
Proof.
  apply (entries_are_tagged (root_node sample_file)). vm_compute. discriminate.
Defined.

(** ** The entry points: failure and what they assign *)

(** X11: both entry points raise when the root of a tree they are given is
    itself a let declaration: the root has no parent, and
    [node.parent.type] is read outside the [try] block.  For
    [compare_two_files] this holds for either of its two trees. *)
Theorem entry_points_raise_on_let_root (changes : DetailedChanges) (T other : Tree)
    (mode : pystr) :
  type (root_node T) = "let_declaration" →
  process_single_file changes T mode = Raises
  ∧ compare_two_files changes T other = Raises
  ∧ compare_two_files changes other T = Raises.
Proof.
  intros HT. unfold process_single_file, compare_two_files.
  rewrite (extract_components_raises _ HT). split_and!; try done.
  destruct (decide (type (root_node other) = "let_declaration")) as [Ho|Ho].
  - by rewrite (extract_components_raises _ Ho).
  - by rewrite (extract_components_returns _ Ho).
Qed.

Lemma entry_points_raise_on_let_root_witness :
  process_single_file used_changes lone_let (lit "added") = Raises
  ∧ compare_two_files used_changes lone_let sample_file = Raises
  ∧ compare_two_files used_changes sample_file lone_let = Raises.
Proof.
  apply (entry_points_raise_on_let_root used_changes lone_let sample_file (lit "added")).
  reflexivity.
Defined.

(** X12: [process_single_file] assigns three lists and leaves the rest of
    the report it is given as it was: the module name and the three modified
    lists always, the added lists in mode deleted, the deleted lists in any
    other mode.  On a report that a previous call has filled, those lists
    are still there afterwards. *)
Theorem single_file_keeps_the_rest (changes : DetailedChanges) (T : Tree)
    (mode : pystr) :
  type (root_node T) ≠ "let_declaration" →
  ∃ r, process_single_file changes T mode = Returns r
    ∧ moduleName r = moduleName changes
    ∧ modifiedFunctions r = modifiedFunctions changes
    ∧ modifiedTypes r = modifiedTypes changes
    ∧ modifiedExternals r = modifiedExternals changes
    ∧ if decide (mode = lit "deleted")
      then addedFunctions r = addedFunctions changes
           ∧ addedTypes r = addedTypes changes
           ∧ addedExternals r = addedExternals changes
      else deletedFunctions r = deletedFunctions changes
           ∧ deletedTypes r = deletedTypes changes
           ∧ deletedExternals r = deletedExternals changes.
Proof.
  intros Hroot. destruct (decide (mode = lit "deleted")) as [->|Hmode].
  - rewrite process_single_file_deleted by done. eexists. split; [done|].
    split_and!; try done; by case_decide.
  - rewrite process_single_file_other by done. eexists. split; [done|].
    split_and!; try done; by case_decide.
Qed.

Lemma single_file_keeps_the_rest_witness :
  ∃ r, process_single_file used_changes sample_file (lit "deleted") = Returns r
    ∧ moduleName r = moduleName used_changes
    ∧ modifiedFunctions r = modifiedFunctions used_changes
    ∧ modifiedTypes r = modifiedTypes used_changes
    ∧ modifiedExternals r = modifiedExternals used_changes
    ∧ if decide (lit "deleted" = lit "deleted")
      then addedFunctions r = addedFunctions used_changes
           ∧ addedTypes r = addedTypes used_changes
           ∧ addedExternals r = addedExternals used_changes
      else deletedFunctions r = deletedFunctions used_changes
           ∧ deletedTypes r = deletedTypes used_changes
           ∧ deletedExternals r = deletedExternals used_changes.
Proof.
  apply (single_file_keeps_the_rest used_changes sample_file (lit "deleted")).
  vm_compute. discriminate.
Defined.

(** ** to_dict *)

(** X13: [to_dict] loses nothing: two reports have the same dict exactly
    when they are the same report, field by field. *)
Theorem to_dict_injective (a b : DetailedChanges) :
  to_dict a = to_dict b ↔ a = b.
Proof.
  split; [|by intros ->].
  destruct a, b. unfold to_dict. cbn. intros H.
  by simplify_eq.
Qed.

(** ** Positions *)

Section positions.

Lemma same_but_positions_inv a b :
  same_but_positions a b →
  type a = type b ∧ is_named a = is_named b ∧ text a = text b
  ∧ Forall2 same_but_positions (children a) (children b).
Proof. by inversion 1. Qed.

Lemma named_children_same a b :
  Forall2 same_but_positions (children a) (children b) →
  Forall2 same_but_positions (named_children a) (named_children b).
Proof.
  unfold named_children. apply Forall2_filter.
  intros x y (_ & Hn & _)%same_but_positions_inv. by rewrite Hn.
Qed.

Lemma ast_to_tuple_same a b :
  same_but_positions a b → ast_to_tuple a = ast_to_tuple b.
Proof.
  revert b. induction a as [a IH] using node_nested_ind.
  intros b (Hty & _ & Htxt & Hcs)%same_but_positions_inv.
  apply named_children_same in Hcs.
  assert (Forall (λ c, ∀ b, same_but_positions c b → ast_to_tuple c = ast_to_tuple b)
            (named_children a)) as IHn.
  { rewrite Forall_forall in IH |- *. intros c [_ Hc]%list_elem_of_filter. by apply IH. }
  assert (ast_to_tuple <$> named_children a = ast_to_tuple <$> named_children b) as Hsubs.
  { clear -Hcs IHn. induction Hcs as [|x y l k Hxy _ IHl]; [done|].
    apply Forall_cons in IHn as [Hx IHn]. csimpl. f_equal; auto. }
  rewrite (ast_to_tuple_eq a), (ast_to_tuple_eq b), Hty, Htxt, Hsubs.
  destruct Hcs; done.
Qed.

Lemma first_named_same name_type cs cs' :
  Forall2 same_but_positions cs cs' →
  first_named_of_type name_type cs = first_named_of_type name_type cs'.
Proof.
  induction 1 as [|x y l k Hxy _ IH]; [done|]. cbn [first_named_of_type].
  apply same_but_positions_inv in Hxy as (Hty & Hn & Htxt & _).
  by rewrite Hty, Hn, Htxt, IH.
Qed.

Lemma get_decl_name_same a b node_type name_type :
  Forall2 same_but_positions (children a) (children b) →
  get_decl_name a node_type name_type = get_decl_name b node_type name_type.
Proof.
  unfold get_decl_name. induction 1 as [|x y l k Hxy _ IH]; [done|].
  cbn [get_decl_name_from].
  apply same_but_positions_inv in Hxy as (Hty & Hn & Htxt & Hcs).
  by rewrite Hty, Hn, Htxt, (first_named_same _ _ _ Hcs), IH.
Qed.

Lemma qualify_same above above' name :
  Forall2 same_children_but_positions above above' →
  qualify above name = qualify above' name.
Proof.
  destruct 1 as [|gp gp' ? ? [_ Hcs] _]; [done|]. cbn [qualify].
  destruct Hcs as [|c c' ? ? Hc _]; [done|].
  apply same_but_positions_inv in Hc as (_ & _ & Htxt & _). by rewrite Htxt.
Qed.

Lemma keys_same l1 l2 :
  same_place l1 l2 →
  function_key l1 = function_key l2 ∧ type_key l1 = type_key l2
  ∧ external_key l1 = external_key l2.
Proof.
  destruct l1 as [anc a], l2 as [anc' b]. intros [Hanc Hab]. cbn [fst snd] in *.
  apply same_but_positions_inv in Hab as (Hty & _ & _ & Hcs).
  unfold function_key, type_key, external_key. cbn [fst snd].
  rewrite Hty, !(get_decl_name_same a b _ _ Hcs). split_and!; [|done..].
  case_decide; [|done].
  destruct Hanc as [|p p' ? ? [Hp _] Habove]; [done|].
  by rewrite Hp, (qualify_same _ _ _ Habove).
Qed.

Lemma reached_same a :
  ∀ b anc anc',
    Forall2 same_children_but_positions anc anc' →
    same_but_positions a b →
    Forall2 same_place (reached anc a) (reached anc' b).
Proof.
  induction a as [a IH] using node_nested_ind. intros b anc anc' Hanc Hab.
  rewrite !reached_eq. constructor; [done|].
  pose proof Hab as (Hty & _ & _ & Hcs)%same_but_positions_inv.
  assert (is_declaration a ↔ is_declaration b) as Hdecl
    by (unfold is_declaration; by rewrite Hty).
  destruct (decide (is_declaration a)) as [Ha|Ha].
  { rewrite decide_True by (by apply Hdecl). constructor. }
  rewrite decide_False by (by rewrite <- Hdecl).
  apply Forall2_bind.
  assert (Forall2 same_children_but_positions (a :: anc) (b :: anc')) as Hanc'.
  { constructor; [|done]. by split. }
  apply named_children_same in Hcs.
  assert (Forall (λ c, ∀ b anc anc',
                    Forall2 same_children_but_positions anc anc' →
                    same_but_positions c b →
                    Forall2 same_place (reached anc c) (reached anc' b))
            (named_children a)) as IHn.
  { rewrite Forall_forall in IH |- *. intros c [_ Hc]%list_elem_of_filter. by apply IH. }
  clear -Hcs IHn Hanc'. induction Hcs as [|x y l k Hxy _ IHl]; [constructor|].
  apply Forall_cons in IHn as [Hx IHn]. constructor; auto.
Qed.

Lemma record_not_declaration m loc : ¬ is_declaration loc.2 → record m loc = m.
Proof.
  intros Hno. unfold record, function_key, type_key, external_key, is_declaration in *.
  repeat case_decide; try done; exfalso; apply Hno; auto.
Qed.

Lemma same_signatures_refl m : same_signatures m m.
Proof. by intros k. Qed.

Lemma record_same m m' loc loc' :
  same_signatures m m' → same_place loc loc' →
  same_signatures (record m loc) (record m' loc').
Proof.
  intros Hm Hloc k. destruct (Hm k) as (Hf & Ht & He).
  destruct (keys_same _ _ Hloc) as (Hkf & Hkt & Hke).
  destruct Hloc as [_ Hab]. apply ast_to_tuple_same in Hab.
  rewrite !record_functions, !record_types, !record_externals, Hkf, Hkt, Hke.
  split_and!; case_decide; try done; unfold ast_repr, entry_of; cbn; by rewrite Hab.
Qed.

Lemma foldl_record_same locs locs' :
  Forall2 same_place locs locs' →
  ∀ m m', same_signatures m m' →
          same_signatures (foldl record m locs) (foldl record m' locs').
Proof.
  induction 1 as [|loc loc' locs locs' Hloc _ IH]; intros m m' Hm; [done|].
  cbn [foldl]. apply IH. by apply record_same.
Qed.

Lemma found_same root root' :
  ¬ is_declaration root → same_children_but_positions root root' →
  same_signatures (found root) (found root').
Proof.
  intros Hno [Hty Hcs]. unfold found. rewrite !reached_eq.
  assert (¬ is_declaration root') as Hno'
    by (unfold is_declaration in *; by rewrite <- Hty).
  rewrite !decide_False by done. cbn [foldl].
  rewrite !record_not_declaration by done.
  apply foldl_record_same; [|apply same_signatures_refl].
  assert (Forall2 same_children_but_positions [root] [root']) as Hanc
    by (constructor; [by split|constructor]).
  apply Forall2_bind. apply named_children_same in Hcs. clear -Hcs Hanc.
  induction Hcs as [|x y l k Hxy _ IHl]; constructor; [|done].
  by apply reached_same.
Qed.

Lemma same_signatures_dom (m1 m2 : gmap pystr Entry) :
  (∀ k, ast_repr <$> m1 !! k = ast_repr <$> m2 !! k) → dom m1 = dom m2.
Proof.
  intros H. apply set_eq. intros k. rewrite !elem_of_dom.
  specialize (H k). destruct (m1 !! k), (m2 !! k); try done; split; by eauto.
Qed.

End positions.

(** X14: a signature never depends on positions: two subtrees that are the
    same but for the start and end points of their nodes have equal
    signatures. *)
Theorem signature_ignores_positions (a b : Node) :
  same_but_positions a b → ast_to_tuple a = ast_to_tuple b.
Proof. apply ast_to_tuple_same. Qed.

Lemma signature_ignores_positions_witness :
  ast_to_tuple (let_a_at 0) = ast_to_tuple (let_a_at 2).
Proof.
  apply (signature_ignores_positions (let_a_at 0) (let_a_at 2)).
  repeat (constructor; try reflexivity).
Defined.

(** X15: when the new tree holds the same declarations as the old one, laid
    out differently -- each child of the root the same but for positions,
    the root's own text and span free -- [compare_two_files] reports
    nothing: all nine lists are empty. *)
Theorem moved_declarations_report_nothing (changes : DetailedChanges) (old new : Tree) :
  ¬ is_declaration (root_node old) →
  same_children_but_positions (root_node old) (root_node new) →
  compare_two_files changes old new = Returns (new_changes (moduleName changes)).
Proof.
  intros Hno Hsame.
  assert (type (root_node old) ≠ "let_declaration") as Hold
    by (intros H; apply Hno; by left).
  assert (type (root_node new) ≠ "let_declaration") as Hnew
    by (destruct Hsame as [<- _]; done).
  destruct (compare_two_files_returns changes old new Hold Hnew)
    as (df & dt & de & Hf & Ht & He & ->).
  pose proof (found_same _ _ Hno Hsame) as Hsig.
  rewrite same_signatures_no_diff in Hf, Ht, He;
    try (apply same_signatures_dom); try (intros k; by destruct (Hsig k) as (? & ? & ?)).
  injection Hf as <-. injection Ht as <-. injection He as <-. done.
Qed.

Lemma moved_declarations_report_nothing_witness :
  compare_two_files (new_changes (lit "M"))
    (file_with_let_a_at 0 "let a = 1") (file_with_let_a_at 2 "  let a = 1")
  = Returns (new_changes (lit "M")).
Proof.
  apply (moved_declarations_report_nothing (new_changes (lit "M"))
           (file_with_let_a_at 0 "let a = 1") (file_with_let_a_at 2 "  let a = 1")).
  - intros [H|[H|H]]; vm_compute in H; discriminate.
  - split; [reflexivity|]. repeat (constructor; try reflexivity).
Defined.
